(** * Lecture Eight: interpolation

    A shallow embedding of the code cells of
    [Lecture/Lecture_Eight_Interpolation.ipynb]: the Lagrange cells [lfun]
    and [lagran_interp], and the natural cubic spline [spline_maker].

    - A NumPy array of floats is a list of rationals, so every statement is
      about exact arithmetic.  A quotient by zero has no counterpart here
      (NumPy gives [inf] or [nan]): statements that depend on a quotient
      assume strictly increasing nodes.
    - A Python exception is a [Raise] in a small error monad, in the order
      in which the statements of a body run.
    - The module-level names that a function body reads without assigning
      them ([ivals] in [spline_maker], [ipoly] in [lagran_interp]) are the
      fields of an explicit [globals] record.
    - [scipy.sparse.linalg.spsolve] is a parameter of [spline_maker]; the
      matrix it receives is the diagonal storage that [spdiags] builds. *)

From Stdlib Require Import List ZArith QArith Qabs Qfield Lia Bool Reals Psatz.
Import ListNotations.

Set Default Proof Using "All".

Local Open Scope Q_scope.

(** ** Python results *)

Inductive exn : Set := NameError | ValueError | IndexError.

Inductive result (A : Type) : Type :=
| Ok (a : A)
| Raise (e : exn).

Arguments Ok {A} a.
Arguments Raise {A} e.

Definition bind {A B : Type} (r : result A) (k : A -> result B) : result B :=
  match r with
  | Ok a => k a
  | Raise e => Raise e
  end.

Notation "x <- r ;; k" := (bind r (fun x => k))
  (at level 61, r at next level, right associativity).

(** A loop [for j in js: s = body(j, s)] whose body may raise. *)
Fixpoint for_each {S : Type} (js : list nat) (body : nat -> S -> result S)
  (s : S) : result S :=
  match js with
  | [] => Ok s
  | j :: js' => s' <- body j s ;; for_each js' body s'
  end.

(** ** NumPy one-dimensional arrays *)

Definition array := list Q.

(** [a[i]] for a non-negative index. *)
Definition index {A : Type} (a : list A) (i : nat) : result A :=
  match nth_error a i with
  | Some v => Ok v
  | None => Raise IndexError
  end.

(** [a[0:k]]: a negative stop counts from the end. *)
Definition slice_to (k : Z) (a : array) : array :=
  if (0 <=? k)%Z then firstn (Z.to_nat k) a
  else firstn (length a - Z.to_nat (- k)) a.

(** [a[1:]] *)
Definition slice_from1 (a : array) : array := tl a.

Fixpoint map2 (op : Q -> Q -> Q) (u v : array) : array :=
  match u, v with
  | x :: u', y :: v' => op x y :: map2 op u' v'
  | _, _ => []
  end.

(** An elementwise binary operation on two arrays, with NumPy's broadcasting
    rule for one dimension: equal lengths, or one operand of length 1. *)
Definition broadcast2 (op : Q -> Q -> Q) (u v : array) : result array :=
  if Nat.eqb (length u) (length v) then Ok (map2 op u v)
  else match u, v with
       | [a], _ => Ok (map (op a) v)
       | _, [b] => Ok (map (fun x => op x b) u)
       | _, _ => Raise ValueError
       end.

(** [np.zeros(k)] and [np.ones(k)] *)
Definition zeros (k : nat) : array := repeat 0 k.
Definition ones (k : nat) : array := repeat 1 k.

(** [q < x] and [q >= x], an array against a scalar. *)
Definition Qlt_bool (x y : Q) : bool := negb (Qle_bool y x).
Definition array_lt (qs : array) (x : Q) : list bool :=
  map (fun q => Qlt_bool q x) qs.
Definition array_ge (qs : array) (x : Q) : list bool :=
  map (fun q => Qle_bool x q) qs.

(** [l * r] on boolean arrays of one length. *)
Fixpoint mask_and (l r : list bool) : list bool :=
  match l, r with
  | a :: l', b :: r' => (a && b) :: mask_and l' r'
  | _, _ => []
  end.

(** [a[inds]]: the entries of [a] where the mask holds. *)
Fixpoint compress (inds : list bool) (a : array) : array :=
  match inds, a with
  | true :: inds', x :: a' => x :: compress inds' a'
  | false :: inds', _ :: a' => compress inds' a'
  | _, _ => []
  end.

(** The effect of [s[inds] = vals] once the shapes are known to agree:
    the entries of [vals] go, in order, to the positions the mask selects. *)
Fixpoint putmask (s : array) (inds : list bool) (vals : array) : array :=
  match s, inds with
  | x :: s', true :: inds' =>
      match vals with
      | v :: vals' => v :: putmask s' inds' vals'
      | [] => x :: putmask s' inds' []
      end
  | x :: s', false :: inds' => x :: putmask s' inds' vals
  | _, _ => s
  end.

(** [s[inds] = vals], where [vals] was computed from [q[inds]] and so has
    one entry for each selected position.  An empty boolean index selects
    nothing in an array of any size; a boolean index that is not empty must
    have the length of the array it indexes (an [IndexError] since NumPy
    1.13). *)
Definition mask_assign (s : array) (inds : list bool) (vals : array)
  : result array :=
  match inds with
  | [] => Ok s
  | _ :: _ =>
      if Nat.eqb (length inds) (length s) then Ok (putmask s inds vals)
      else Raise IndexError
  end.

(** ** SciPy sparse matrices in diagonal storage *)

(** [spdiags(data, diags, m, n)] stores row [k] of [data] on the diagonal
    [diags[k]] (0 the main one, positive above it, negative below), and the
    entry of that diagonal in column [j] is [data[k][j]]. *)
Record dia_matrix : Type := {
  dia_data : list array;
  dia_offsets : list Z;
  dia_shape : Z * Z
}.

(** [np.array([r0, r1, r2])] is a matrix when the rows have one length. *)
Definition array2 (rows : list array) : result (list array) :=
  match rows with
  | [] => Ok rows
  | r :: rest =>
      if forallb (fun r' => Nat.eqb (length r') (length r)) rest
      then Ok rows else Raise ValueError
  end.

Definition spdiags (data : list array) (diags : list Z) (m n : Z)
  : result dia_matrix :=
  if ((m <? 0) || (n <? 0))%Z then Raise ValueError
  else if negb (Nat.eqb (length data) (length diags)) then Raise ValueError
  else Ok {| dia_data := data; dia_offsets := diags; dia_shape := (m, n) |}.

Definition Qsum (l : list Q) : Q := fold_right Qplus 0 l.

(** The entry [A[i,j]]: every stored diagonal through [(i,j)] contributes. *)
Definition dia_get (A : dia_matrix) (i j : nat) : Q :=
  if ((Z.of_nat i <? fst (dia_shape A)) && (Z.of_nat j <? snd (dia_shape A)))%Z
  then Qsum (map (fun rk : array * Z =>
                    if (snd rk =? Z.of_nat j - Z.of_nat i)%Z
                    then nth j (fst rk) 0 else 0)
               (combine (dia_data A) (dia_offsets A)))
  else 0.

(** Row [i] of the product [A v]. *)
Definition dia_row_dot (A : dia_matrix) (v : array) (i : nat) : Q :=
  Qsum (map (fun j => dia_get A i j * nth j v 0)
          (seq 0 (Z.to_nat (snd (dia_shape A))))).

(** ** The notebook's module-level names read by the functions *)

Record globals : Type := {
  ivals : option array;
  ipoly : option array
}.

(** Reading a global name that is not bound raises [NameError]. *)
Definition lookup {A : Type} (v : option A) : result A :=
  match v with
  | Some a => Ok a
  | None => Raise NameError
  end.

(** ** Lagrange interpolation cells *)

(** [def lfun(xvals,jj,x): lval = np.ones(x.size); return lval] *)
Definition lfun (xvals : array) (jj : nat) (x : array) : array :=
  let lval := ones (length x) in
  lval.

(** [def lagran_interp(xvals,fvals,x): n = fvals.size; return ipoly]:
    [ipoly] is not assigned in the body, so it is the module-level name. *)
Definition lagran_interp (g : globals) (xvals fvals x : array)
  : result array :=
  let n := length fvals in
  lookup (ipoly g).

(** ** The cubic spline cell *)

(** The cubic of one segment at the local offset [t], as the loop body
    writes it: [a*t**3. + b*t**2. + c*t + d]. *)
Definition cubic (a b c d t : Q) : Q := a * t ^ 3 + b * t ^ 2 + c * t + d.

(** The local variables of [spline_maker] when its body has run. *)
Module Locals.
Record t : Type := {
  n : Z;
  df : array;
  dx : array;
  dfdx : array;
  rhs : array;
  diag : array;
  data : list array;
  dvals : list Z;
  Bmat : dia_matrix;
  bvec : array;
  cvec : array;
  avec : array;
  svals : array
}.
End Locals.

Section Spline.

(** [scipy.sparse.linalg.spsolve], the external solver. *)
Variable spsolve : dia_matrix -> array -> result array.

(** One pass of [for jj in xrange(1,n+1)]. *)
Definition spline_step (xvals fvals qvals avec bvec cvec : array)
  (jj : nat) (svals : array) : result array :=
  xr <- index xvals jj ;;
  let indsr := array_lt qvals xr in
  xl <- index xvals (jj - 1) ;;
  let indsl := array_ge qvals xl in
  let inds := mask_and indsl indsr in
  xl' <- index xvals (jj - 1) ;;
  let dxloc := map (fun q => q - xl') (compress inds qvals) in
  a <- index avec (jj - 1) ;;
  b <- index bvec (jj - 1) ;;
  c <- index cvec (jj - 1) ;;
  d <- index fvals (jj - 1) ;;
  mask_assign svals inds (map (cubic a b c d) dxloc).

Definition spline_maker_locals (g : globals) (xvals fvals qvals : array)
  : result Locals.t :=
  let n := (Z.of_nat (length fvals) - 1)%Z in
  df <- broadcast2 Qminus (slice_from1 fvals) (slice_to n fvals) ;;
  dx <- broadcast2 Qminus (slice_from1 xvals) (slice_to n xvals) ;;
  dfdx <- broadcast2 Qdiv df dx ;;
  iv <- lookup (ivals g) ;;
  let svals := zeros (length iv) in
  rhs <- broadcast2 Qminus (slice_from1 dfdx) (slice_to (n - 1) dfdx) ;;
  s <- broadcast2 Qplus (slice_from1 dx) (slice_to (n - 1) dx) ;;
  let diag := map (Qmult (2 / 3)) s in
  data <- array2 [diag; map (fun d => d / 3) (slice_from1 dx);
                  map (fun d => d / 3) (slice_to (n - 1) dx)] ;;
  let dvals := [0; -1; 1]%Z in
  Bmat <- spdiags data dvals (n - 1) (n - 1) ;;
  sol <- spsolve Bmat rhs ;;
  let bvec := 0 :: sol in
  t1 <- broadcast2 Qmult (map (Qmult (2 / 3)) dx) bvec ;;
  u1 <- broadcast2 Qminus dfdx t1 ;;
  t2 <- broadcast2 Qmult (map (fun d => d / 3) dx)
          (slice_from1 bvec ++ [0]) ;;
  cvec <- broadcast2 Qminus u1 t2 ;;
  p <- broadcast2 Qmult dx bvec ;;
  u2 <- broadcast2 Qminus dfdx p ;;
  u3 <- broadcast2 Qminus u2 cvec ;;
  avec <- broadcast2 Qdiv u3 (map (fun d => d ^ 2) dx) ;;
  svals' <- for_each (seq 1 (Z.to_nat n))
              (spline_step xvals fvals qvals avec bvec cvec) svals ;;
  Ok {| Locals.n := n; Locals.df := df; Locals.dx := dx;
        Locals.dfdx := dfdx; Locals.rhs := rhs; Locals.diag := diag;
        Locals.data := data; Locals.dvals := dvals; Locals.Bmat := Bmat;
        Locals.bvec := bvec; Locals.cvec := cvec; Locals.avec := avec;
        Locals.svals := svals' |}.

(** [def spline_maker(xvals,fvals,qvals): ...; return svals] *)
Definition spline_maker (g : globals) (xvals fvals qvals : array)
  : result array :=
  fr <- spline_maker_locals g xvals fvals qvals ;;
  Ok (Locals.svals fr).

End Spline.

(** ** An exact tridiagonal solver

    Elimination without pivoting on the three stored diagonals, in exact
    arithmetic: one concrete solver to run [spline_maker] with. *)

(** Row [i] of the system as (sub-diagonal, diagonal, super-diagonal,
    right-hand side). *)
Definition tridiag_row (A : dia_matrix) (r : array) (i : nat) : Q * Q * Q * Q :=
  (match i with O => 0 | S k => dia_get A i k end,
   dia_get A i i, dia_get A i (S i), nth i r 0).

(** Forward sweep and back substitution in one recursion: [cp] and [rp] are
    the eliminated super-diagonal entry and right-hand side of the row
    above. *)
Fixpoint thomas (rows : list (Q * Q * Q * Q)) (cp rp : Q) : array :=
  match rows with
  | [] => []
  | (a, d, c, r) :: rest =>
      let den := d - a * cp in
      let c' := c / den in
      let r' := (r - a * rp) / den in
      let xs := thomas rest c' r' in
      (r' - c' * hd 0 xs) :: xs
  end.

Definition tridiag_solve (A : dia_matrix) (r : array) : result array :=
  if ((fst (dia_shape A) =? Z.of_nat (length r))
      && (snd (dia_shape A) =? Z.of_nat (length r)))%Z
  then Ok (map Qred (thomas (map (tridiag_row A r) (seq 0 (length r))) 0 0))
  else Raise ValueError.

(** A row is dominant when its off-diagonal entries are non-negative and
    add up to less than its diagonal entry. *)
Definition dominant (row : Q * Q * Q * Q) : Prop :=
  let '(a, d, c, _) := row in 0 <= a /\ 0 <= c /\ a + c < d.

(** The solution [xs] satisfies the rows, with [xprev] in the place of the
    unknown before the first one and [0] after the last one. *)
Fixpoint rows_hold (rows : list (Q * Q * Q * Q)) (xprev : Q) (xs : array)
  : Prop :=
  match rows, xs with
  | [], [] => True
  | (a, d, c, r) :: rest, x :: xs' =>
      a * xprev + d * x + c * hd 0 xs' == r /\ rows_hold rest x xs'
  | _, _ => False
  end.

(** ** Quantities the statements are written with *)

(** Strictly increasing nodes, as a test on adjacent entries. *)
Fixpoint increasingb (xs : array) : bool :=
  match xs with
  | x :: ((y :: _) as xs') => Qlt_bool x y && increasingb xs'
  | _ => true
  end.

(** [x_{j+1} - x_j] and the divided difference [g_j]. *)
Definition delta (xs : array) (j : nat) : Q := nth (S j) xs 0 - nth j xs 0.
Definition slope (xs fs : array) (j : nat) : Q := delta fs j / delta xs j.

(** First and second derivative of [cubic a b c d] at the offset [t]. *)
Definition cubic' (a b c t : Q) : Q := 3 * a * t ^ 2 + 2 * b * t + c.
Definition cubic'' (a b t : Q) : Q := 6 * a * t + 2 * b.

(** The cubic of segment [j] (between the nodes [j] and [j + 1]) at the
    query [q], with the coefficients the loop body reads. *)
Definition segment (xvals fvals avec bvec cvec : array) (j : nat) (q : Q) : Q :=
  cubic (nth j avec 0) (nth j bvec 0) (nth j cvec 0) (nth j fvals 0)
    (q - nth j xvals 0).

(** Its first and second derivative there. *)
Definition segment' (xvals avec bvec cvec : array) (j : nat) (q : Q) : Q :=
  cubic' (nth j avec 0) (nth j bvec 0) (nth j cvec 0) (q - nth j xvals 0).
Definition segment'' (xvals avec bvec : array) (j : nat) (q : Q) : Q :=
  cubic'' (nth j avec 0) (nth j bvec 0) (q - nth j xvals 0).

(** The entry in row [i] and column [j] of the system for the interior
    curvatures, as the derivation in the notebook gives it. *)
Definition system_entry (xs : array) (i j : nat) : Q :=
  if Nat.eqb j i then 2 / 3 * (delta xs i + delta xs (S i))
  else if Nat.eqb j (S i) then delta xs (S i) / 3
  else if Nat.eqb (S j) i then delta xs i / 3
  else 0.

(** The query [q] lies in the half-open interval of pass [jj] of the loop. *)
Definition in_interval (xs : array) (jj : nat) (q : Q) : Prop :=
  nth (jj - 1) xs 0 <= q /\ q < nth jj xs 0.

(** The solver returned an exact solution of the assembled system. *)
Definition exact_solve (fr : Locals.t) : Prop :=
  length (tl (Locals.bvec fr)) = length (Locals.rhs fr) /\
  forall i, (i < length (Locals.rhs fr))%nat ->
    dia_row_dot (Locals.Bmat fr) (tl (Locals.bvec fr)) i
    == nth i (Locals.rhs fr) 0.

(** What a caller may rely on from the solver: a vector of the length of
    the right-hand side for a square system of that size. *)
Definition solver_shape (spsolve : dia_matrix -> array -> result array) : Prop :=
  forall A r,
    dia_shape A = (Z.of_nat (length r), Z.of_nat (length r)) ->
    exists sol, spsolve A r = Ok sol /\ length sol = length r.

(** The Lagrange basis polynomial the first markdown cell defines,
    [L_j(x) = prod over l <> j of (x - x_l) / (x_j - x_l)], and the
    interpolating polynomial [P_n(x) = sum over j of f_j L_j(x)]. *)
Definition Qprod (l : list Q) : Q := fold_right Qmult 1 l.

Definition lagrange_basis (xs : array) (j : nat) (x : Q) : Q :=
  Qprod (map (fun l => (x - nth l xs 0) / (nth j xs 0 - nth l xs 0))
           (filter (fun l => negb (Nat.eqb l j)) (seq 0 (length xs)))).

Definition lagrange_poly (xs fs : array) (x : Q) : Q :=
  Qsum (map (fun j => nth j fs 0 * lagrange_basis xs j x)
          (seq 0 (length fs))).

(** Equality of results, with fractions compared by value. *)
Fixpoint array_eqb (u v : array) : bool :=
  match u, v with
  | [], [] => true
  | x :: u', y :: v' => Qeq_bool x y && array_eqb u' v'
  | _, _ => false
  end.

Definition result_eqb (r1 r2 : result array) : bool :=
  match r1, r2 with
  | Ok u, Ok v => array_eqb u v
  | Raise NameError, Raise NameError => true
  | Raise ValueError, Raise ValueError => true
  | Raise IndexError, Raise IndexError => true
  | _, _ => false
  end.

(** ** Chebyshev nodes *)

(** Modelled from the spec: the cell that should compute the Chebyshev
    nodes is left blank in the notebook ([xcheb = ] with no right-hand
    side).  The nodes are the ones the spec and the markdown cell above that
    cell give, [x_j = cos((2j+1) pi / (2n+2))] for [j = 0..n], on the
    interval [[-1, 1]] of the reference usage; the cosine makes them real
    numbers. *)
Definition xcheb (n : nat) : list R :=
  map (fun j => cos ((2 * INR j + 1) * PI / (2 * INR n + 2))%R) (seq 0 (S n)).

(** ** The loop, one query at a time *)

(** The passes [js] of the loop of [spline_maker] followed for a single
    query [q], from the initial value [s]: a pass whose interval contains
    [q] overwrites the value with the cubic of its segment. *)
Definition scalar_eval (xvals fvals avec bvec cvec : array) (js : list nat)
  (q s : Q) : Q :=
  fold_left
    (fun v jj =>
       if Qle_bool (nth (jj - 1) xvals 0) q && Qlt_bool q (nth jj xvals 0)
       then segment xvals fvals avec bvec cvec (jj - 1) q
       else v)
    js s.

(** ** The cell that runs the spline *)

(** [np.linspace(start, stop, num)]: [num] evenly spaced samples,
    [i*step + start] with [step = (stop - start)/(num - 1)], the last one
    set to [stop]. *)
Definition linspace (start stop : Q) (num : nat) : array :=
  match num with
  | O => []
  | S O => [start]
  | S k =>
      let step := (stop - start) / inject_Z (Z.of_nat k) in
      map (fun i => inject_Z (Z.of_nat i) * step + start) (seq 0 k) ++ [stop]
  end.

(** The cell after [spline_maker], up to its call:
    [xvs = np.linspace(-1.,1.,int(1e3)+1)], [fvs = 1./(1.+xvs**2.)],
    [ivals = np.linspace(-.99,.99,int(5e3))] (which binds the module-level
    name), and [svals = spline_maker(xvs,fvs,ivals)]. *)
Definition spline_cell (spsolve : dia_matrix -> array -> result array)
  (g : globals) : result array :=
  let xvs := linspace (-1) 1 (1000 + 1) in
  let fvs := map (fun x => 1 / (1 + x ^ 2)) xvs in
  let g' := {| ivals := Some (linspace (- (99 # 100)) (99 # 100) 5000);
               ipoly := ipoly g |} in
  iv <- lookup (ivals g') ;;
  spline_maker spsolve g' xvs fvs iv.

(** ** A sample set to run the code on *)

Definition ex_xvals : array := [0; 1; 3; 4].
Definition ex_fvals : array := [0; 1; 0; 2].
Definition ex_qvals : array := [1 # 2; 4; 7 # 2].
Definition ex_globals : globals :=
  {| ivals := Some ex_qvals; ipoly := None |}.

Definition no_locals : Locals.t :=
  {| Locals.n := 0; Locals.df := []; Locals.dx := []; Locals.dfdx := [];
     Locals.rhs := []; Locals.diag := []; Locals.data := [];
     Locals.dvals := [];
     Locals.Bmat := {| dia_data := []; dia_offsets := [];
                       dia_shape := (0%Z, 0%Z) |};
     Locals.bvec := []; Locals.cvec := []; Locals.avec := [];
     Locals.svals := [] |}.

(** The locals of [spline_maker(ex_xvals, ex_fvals, ex_qvals)] with the
    exact solver. *)
Definition ex_locals : Locals.t :=
  Eval vm_compute in
    match spline_maker_locals tridiag_solve ex_globals ex_xvals ex_fvals
            ex_qvals with
    | Ok fr => fr
    | Raise _ => no_locals
    end.

(** Values on the line [2*x + 1] at the same nodes, and the locals of the
    call on them. *)
Definition ex_line_fvals : array := [1; 3; 7; 9].
Definition ex_line_locals : Locals.t :=
  Eval vm_compute in
    match spline_maker_locals tridiag_solve ex_globals ex_xvals ex_line_fvals
            ex_qvals with
    | Ok fr => fr
    | Raise _ => no_locals
    end.

(** * Properties *)

(** ** Arrays *)

Lemma Qlt_bool_iff (x y : Q) : Qlt_bool x y = true <-> x < y.
Proof.
  unfold Qlt_bool. rewrite negb_true_iff.
  split; intros H.
  - apply Qnot_le_lt. intros Hle. apply Qle_bool_iff in Hle. congruence.
  - apply not_true_is_false. intros Hle. apply Qle_bool_iff in Hle.
    apply (Qlt_not_le _ _ H Hle).
Qed.

Lemma map2_length (op : Q -> Q -> Q) (u v : array) :
  length (map2 op u v) = Nat.min (length u) (length v).
Proof.
  revert v. induction u as [|x u IH]; intros [|y v]; simpl; auto.
Qed.

Lemma nth_map2 (op : Q -> Q -> Q) (u v : array) (i : nat) :
  (i < length u)%nat -> (i < length v)%nat ->
  nth i (map2 op u v) 0 = op (nth i u 0) (nth i v 0).
Proof.
  revert v i. induction u as [|x u IH]; intros [|y v] [|i]; simpl; intros;
    try lia; auto.
  apply IH; lia.
Qed.

Lemma broadcast2_same (op : Q -> Q -> Q) (u v : array) :
  length u = length v -> broadcast2 op u v = Ok (map2 op u v).
Proof.
  intros H. unfold broadcast2. rewrite H, Nat.eqb_refl. reflexivity.
Qed.

Lemma nth_tl (a : array) (i : nat) : nth i (tl a) 0 = nth (S i) a 0.
Proof. destruct a; simpl; auto. destruct i; auto. Qed.

Lemma length_tl (a : array) : length (tl a) = (length a - 1)%nat.
Proof. destruct a; simpl; lia. Qed.

Lemma slice_to_nat (k : nat) (a : array) :
  slice_to (Z.of_nat k) a = firstn k a.
Proof.
  unfold slice_to. destruct (Z.leb_spec 0 (Z.of_nat k)); [|lia].
  now rewrite Nat2Z.id.
Qed.

Lemma nth_firstn (k i : nat) (a : array) :
  (i < k)%nat -> nth i (firstn k a) 0 = nth i a 0.
Proof.
  revert i a. induction k as [|k IH]; intros i a H; [lia|].
  destruct a as [|x a]; simpl; [now destruct i|].
  destruct i; simpl; auto. apply IH; lia.
Qed.

Lemma nth_map_lt (f : Q -> Q) (a : array) (i : nat) :
  (i < length a)%nat -> nth i (map f a) 0 = f (nth i a 0).
Proof.
  intros H. rewrite (nth_indep _ 0 (f 0)) by now rewrite length_map.
  apply map_nth.
Qed.

Lemma index_nth (a : array) (i : nat) :
  (i < length a)%nat -> index a i = Ok (nth i a 0).
Proof.
  intros H. unfold index. now rewrite (nth_error_nth' a 0 H).
Qed.

Lemma index_inv (a : array) (i : nat) (v : Q) :
  index a i = Ok v -> (i < length a)%nat /\ v = nth i a 0.
Proof.
  unfold index. destruct (nth_error a i) eqn:E; intros H; inversion H; subst.
  split; [apply nth_error_Some; congruence|].
  symmetry. now apply nth_error_nth.
Qed.

Lemma bind_inv {A B : Type} (r : result A) (k : A -> result B) (b : B) :
  bind r k = Ok b -> exists a, r = Ok a /\ k a = Ok b.
Proof. destruct r; simpl; intros H; [eauto | discriminate]. Qed.

Lemma increasingb_adjacent (xs : array) (i : nat) :
  increasingb xs = true -> (S i < length xs)%nat ->
  nth i xs 0 < nth (S i) xs 0.
Proof.
  revert i. induction xs as [|x xs IH]; intros i H Hi; simpl in Hi; [lia|].
  destruct xs as [|y xs]; simpl in Hi; [lia|].
  cbn [increasingb] in H. apply andb_true_iff in H. destruct H as [Hxy H].
  destruct i as [|i].
  - simpl. now apply Qlt_bool_iff.
  - change (nth i (y :: xs) 0 < nth (S i) (y :: xs) 0).
    apply IH; auto. simpl. lia.
Qed.

Lemma increasingb_nth (xs : array) (i j : nat) :
  increasingb xs = true -> (i < j)%nat -> (j < length xs)%nat ->
  nth i xs 0 < nth j xs 0.
Proof.
  intros H Hij Hj. induction j as [|j IH]; [lia|].
  destruct (Nat.eq_dec i j) as [->|Hne].
  - now apply increasingb_adjacent.
  - apply Qlt_trans with (nth j xs 0).
    + apply IH; lia.
    + now apply increasingb_adjacent.
Qed.

Lemma delta_pos (xs : array) (j : nat) :
  increasingb xs = true -> (S j < length xs)%nat -> 0 < delta xs j.
Proof.
  intros Hinc Hj. unfold delta.
  apply (proj1 (Qlt_minus_iff _ _)). now apply increasingb_adjacent.
Qed.

Lemma delta_nonzero (xs : array) (j : nat) :
  increasingb xs = true -> (S j < length xs)%nat -> ~ delta xs j == 0.
Proof.
  intros Hinc Hj E. pose proof (delta_pos xs j Hinc Hj) as H.
  rewrite E in H. exact (Qlt_irrefl 0 H).
Qed.

(** ** The evaluation loop *)

Lemma mask_and_length (l r : list bool) :
  length l = length r -> length (mask_and l r) = length l.
Proof.
  revert r. induction l as [|a l IH]; intros [|b r]; simpl; intros H;
    try discriminate; auto.
Qed.

Lemma nth_mask_and (l r : list bool) (i : nat) :
  length l = length r ->
  nth i (mask_and l r) false = nth i l false && nth i r false.
Proof.
  revert r i. induction l as [|a l IH]; intros [|b r] [|i]; simpl; intros H;
    try discriminate; auto.
Qed.

Lemma nth_putmask (f : Q -> Q) (s : array) (inds : list bool) (qs : array)
  (i : nat) :
  length inds = length s -> length qs = length s ->
  nth i (putmask s inds (map f (compress inds qs))) 0
  = if nth i inds false then f (nth i qs 0) else nth i s 0.
Proof.
  revert inds qs i.
  induction s as [|x s IH]; intros [|b inds] [|q qs] i; simpl;
    intros Hi Hq; try discriminate.
  - now destruct i.
  - injection Hi as Hi. injection Hq as Hq.
    destruct b; simpl; destruct i; auto.
Qed.

Lemma putmask_length (s : array) (inds : list bool) (vals : array) :
  length (putmask s inds vals) = length s.
Proof.
  revert inds vals. induction s as [|x s IH]; intros [|[|] inds] vals; simpl;
    auto.
  destruct vals; simpl; auto.
Qed.

(** The mask of pass [jj] at position [i]. *)
Lemma nth_interval_mask (qs : array) (xl xr : Q) (i : nat) :
  (i < length qs)%nat ->
  nth i (mask_and (array_ge qs xl) (array_lt qs xr)) false
  = Qle_bool xl (nth i qs 0) && Qlt_bool (nth i qs 0) xr.
Proof.
  intros Hi. unfold array_ge, array_lt.
  rewrite nth_mask_and by now rewrite !length_map.
  rewrite (nth_indep _ false (Qle_bool xl 0)) by now rewrite length_map.
  rewrite (map_nth (fun q => Qle_bool xl q)).
  rewrite (nth_indep _ false (Qlt_bool 0 xr)) by now rewrite length_map.
  now rewrite (map_nth (fun q => Qlt_bool q xr)).
Qed.

Lemma interval_mask_length (qs : array) (xl xr : Q) :
  length (mask_and (array_ge qs xl) (array_lt qs xr)) = length qs.
Proof.
  unfold array_ge, array_lt.
  rewrite mask_and_length; now rewrite !length_map.
Qed.

Lemma in_interval_bool (xs : array) (jj : nat) (q : Q) :
  Qle_bool (nth (jj - 1) xs 0) q && Qlt_bool q (nth jj xs 0) = true
  <-> in_interval xs jj q.
Proof.
  unfold in_interval. now rewrite andb_true_iff, Qle_bool_iff, Qlt_bool_iff.
Qed.

Lemma mask_assign_same (s : array) (inds : list bool) (vals : array) :
  length inds = length s -> mask_assign s inds vals = Ok (putmask s inds vals).
Proof.
  intros H. unfold mask_assign. destruct inds as [|b inds].
  - destruct s; [reflexivity|discriminate H].
  - now rewrite H, Nat.eqb_refl.
Qed.

Lemma mask_assign_inv (s s' : array) (inds : list bool) (vals : array) :
  mask_assign s inds vals = Ok s' -> length inds = O \/ length inds = length s.
Proof.
  unfold mask_assign. destruct inds as [|b inds]; [now left|].
  destruct (Nat.eqb_spec (length (b :: inds)) (length s)); [now right|].
  discriminate.
Qed.

Section Loop.

Variables xvals fvals qvals avec bvec cvec : array.

Local Notation "'step'" := (spline_step xvals fvals qvals avec bvec cvec).
Local Notation "'seg' jj q" :=
  (segment xvals fvals avec bvec cvec (jj - 1) q)
  (at level 10, jj at level 9, q at level 9).

(** A pass that is in range runs and is a masked update, when the queries
    are as many as the entries of the result or there is no query. *)
Lemma spline_step_run (jj : nat) (s : array) :
  (jj < length xvals)%nat -> (jj - 1 < length avec)%nat ->
  (jj - 1 < length bvec)%nat -> (jj - 1 < length cvec)%nat ->
  (jj - 1 < length fvals)%nat -> length qvals = length s \/ qvals = [] ->
  exists s', step jj s = Ok s' /\ length s' = length s /\
    forall i, (i < length qvals)%nat ->
      nth i s' 0
      = if Qle_bool (nth (jj - 1) xvals 0) (nth i qvals 0)
           && Qlt_bool (nth i qvals 0) (nth jj xvals 0)
        then seg jj (nth i qvals 0) else nth i s 0.
Proof.
  intros Hx Ha Hb Hc Hf Hq. unfold spline_step.
  rewrite (index_nth xvals jj Hx).
  rewrite (index_nth xvals (jj - 1)) by lia.
  rewrite (index_nth avec _ Ha), (index_nth bvec _ Hb), (index_nth cvec _ Hc),
    (index_nth fvals _ Hf).
  cbn [bind].
  destruct qvals as [|q0 qs] eqn:Eq.
  - cbn. exists s. split; [reflexivity|]. split; [reflexivity|].
    intros i Hi. cbn [length] in Hi. lia.
  - destruct Hq as [Hq|Hq]; [|discriminate]. rewrite <- Eq in *.
    rewrite mask_assign_same by (rewrite interval_mask_length; exact Hq).
    eexists. split; [reflexivity|]. split; [apply putmask_length|].
    intros i Hi. rewrite map_map.
    rewrite nth_putmask
      by (rewrite ?interval_mask_length; congruence).
    rewrite nth_interval_mask by lia. reflexivity.
Qed.

(** A pass that returns was in range. *)
Lemma spline_step_inv (jj : nat) (s s' : array) :
  step jj s = Ok s' ->
  (jj < length xvals)%nat /\ (jj - 1 < length avec)%nat /\
  (jj - 1 < length bvec)%nat /\ (jj - 1 < length cvec)%nat /\
  (jj - 1 < length fvals)%nat /\ (length qvals = length s \/ qvals = []).
Proof.
  unfold spline_step. intros H.
  apply bind_inv in H as (xr & Hxr & H). apply index_inv in Hxr as [Hx _].
  apply bind_inv in H as (xl & _ & H).
  apply bind_inv in H as (xl' & _ & H).
  apply bind_inv in H as (a & Ha & H). apply index_inv in Ha as [Ha _].
  apply bind_inv in H as (b & Hb & H). apply index_inv in Hb as [Hb _].
  apply bind_inv in H as (c & Hc & H). apply index_inv in Hc as [Hc _].
  apply bind_inv in H as (d & Hd & H). apply index_inv in Hd as [Hd _].
  apply mask_assign_inv in H. rewrite interval_mask_length in H.
  repeat (split; [assumption|]).
  destruct H as [H|H]; [right|left; exact H].
  destruct qvals; [reflexivity|discriminate H].
Qed.

Lemma spline_step_spec (jj : nat) (s s' : array) :
  step jj s = Ok s' ->
  length s' = length s /\
  forall i, (i < length qvals)%nat ->
    nth i s' 0
    = if Qle_bool (nth (jj - 1) xvals 0) (nth i qvals 0)
         && Qlt_bool (nth i qvals 0) (nth jj xvals 0)
      then seg jj (nth i qvals 0) else nth i s 0.
Proof.
  intros H. pose proof (spline_step_inv _ _ _ H) as (Hx & Ha & Hb & Hc & Hf & Hq).
  destruct (spline_step_run jj s Hx Ha Hb Hc Hf Hq) as (s'' & E & Hl & Hn).
  rewrite H in E. injection E as <-. auto.
Qed.

Lemma loop_length (js : list nat) (s s' : array) :
  for_each js step s = Ok s' -> length s' = length s.
Proof.
  revert s. induction js as [|j js IH]; simpl; intros s H.
  - now injection H as <-.
  - apply bind_inv in H as (s1 & H1 & H).
    apply spline_step_spec in H1 as [Hl _]. rewrite (IH _ H). exact Hl.
Qed.

(** A position whose query is in none of the intervals keeps its value. *)
Lemma loop_keep (js : list nat) (s s' : array) (i : nat) :
  for_each js step s = Ok s' -> (i < length qvals)%nat ->
  (forall j, In j js -> ~ in_interval xvals j (nth i qvals 0)) ->
  nth i s' 0 = nth i s 0.
Proof.
  revert s. induction js as [|j js IH]; simpl; intros s H Hi Hout.
  - now injection H as <-.
  - apply bind_inv in H as (s1 & H1 & H).
    apply spline_step_spec in H1 as [Hl Hn].
    rewrite (IH _ H) by auto.
    rewrite (Hn _ Hi).
    destruct (Qle_bool _ _ && Qlt_bool _ _) eqn:E; [|reflexivity].
    apply in_interval_bool in E. exfalso. apply (Hout j); auto.
Qed.

(** A position whose query is in the interval of pass [j], and in none of
    the later passes, holds the cubic of segment [j - 1]. *)
Lemma loop_hit (js1 js2 : list nat) (j : nat) (s s' : array) (i : nat) :
  for_each (js1 ++ j :: js2) step s = Ok s' -> (i < length qvals)%nat ->
  in_interval xvals j (nth i qvals 0) ->
  (forall j', In j' js2 -> ~ in_interval xvals j' (nth i qvals 0)) ->
  nth i s' 0 = seg j (nth i qvals 0).
Proof.
  revert s. induction js1 as [|j1 js1 IH]; simpl; intros s H Hi Hin Hout.
  - apply bind_inv in H as (s1 & H1 & H).
    apply spline_step_spec in H1 as [Hl Hn].
    rewrite (loop_keep _ _ _ _ H) by auto.
    rewrite (Hn _ Hi).
    apply in_interval_bool in Hin. now rewrite Hin.
  - apply bind_inv in H as (s1 & H1 & H).
    apply (IH _ H); auto.
Qed.

(** The loop runs when every pass is in range. *)
Lemma loop_run (js : list nat) (s : array) :
  (forall j, In j js ->
     (j < length xvals)%nat /\ (j - 1 < length avec)%nat /\
     (j - 1 < length bvec)%nat /\ (j - 1 < length cvec)%nat /\
     (j - 1 < length fvals)%nat) ->
  length qvals = length s \/ qvals = [] ->
  exists s', for_each js step s = Ok s'.
Proof.
  revert s. induction js as [|j js IH]; simpl; intros s Hr Hq; [eauto|].
  destruct (Hr j (or_introl eq_refl)) as (Hx & Ha & Hb & Hc & Hf).
  destruct (spline_step_run j s Hx Ha Hb Hc Hf Hq) as (s1 & E & Hl & _).
  rewrite E. cbn [bind]. apply IH; auto.
  destruct Hq as [Hq|Hq]; [left; congruence|right; exact Hq].
Qed.

End Loop.

(** ** The local variables of an accepted call *)

(** What the locals of [spline_maker] are, in terms of the arguments, for
    [m + 1] nodes and values. *)
Set Implicit Arguments.

Record locals_spec (spsolve : dia_matrix -> array -> result array)
  (g : globals) (xvals fvals qvals : array) (m : nat) (fr : Locals.t)
  : Prop := {
  ls_n : Locals.n fr = Z.of_nat m;
  ls_df : Locals.df fr = map2 Qminus (tl fvals) (firstn m fvals);
  ls_dx : Locals.dx fr = map2 Qminus (tl xvals) (firstn m xvals);
  ls_dfdx : Locals.dfdx fr = map2 Qdiv (Locals.df fr) (Locals.dx fr);
  ls_rhs : Locals.rhs fr
           = map2 Qminus (tl (Locals.dfdx fr))
               (firstn (m - 1) (Locals.dfdx fr));
  ls_diag : Locals.diag fr
            = map (Qmult (2 / 3))
                (map2 Qplus (tl (Locals.dx fr))
                   (firstn (m - 1) (Locals.dx fr)));
  ls_data : Locals.data fr
            = [Locals.diag fr; map (fun d => d / 3) (tl (Locals.dx fr));
               map (fun d => d / 3) (firstn (m - 1) (Locals.dx fr))];
  ls_dvals : Locals.dvals fr = [0; -1; 1]%Z;
  ls_Bmat : Locals.Bmat fr
            = {| dia_data := Locals.data fr; dia_offsets := Locals.dvals fr;
                 dia_shape := (Z.of_nat (m - 1), Z.of_nat (m - 1)) |};
  ls_bvec : exists sol, spsolve (Locals.Bmat fr) (Locals.rhs fr) = Ok sol /\
                        Locals.bvec fr = 0 :: sol;
  ls_cvec : Locals.cvec fr
            = map2 Qminus
                (map2 Qminus (Locals.dfdx fr)
                   (map2 Qmult (map (Qmult (2 / 3)) (Locals.dx fr))
                      (Locals.bvec fr)))
                (map2 Qmult (map (fun d => d / 3) (Locals.dx fr))
                   (tl (Locals.bvec fr) ++ [0]));
  ls_avec : Locals.avec fr
            = map2 Qdiv
                (map2 Qminus
                   (map2 Qminus (Locals.dfdx fr)
                      (map2 Qmult (Locals.dx fr) (Locals.bvec fr)))
                   (Locals.cvec fr))
                (map (fun d => d ^ 2) (Locals.dx fr));
  ls_svals : exists iv, ivals g = Some iv /\
               for_each (seq 1 m)
                 (spline_step xvals fvals qvals (Locals.avec fr)
                    (Locals.bvec fr) (Locals.cvec fr))
                 (zeros (length iv)) = Ok (Locals.svals fr)
}.

Unset Implicit Arguments.

Ltac lengths :=
  repeat (rewrite ?map2_length, ?length_map, ?length_tl, ?length_firstn,
            ?length_app, ?repeat_length in *; cbn [length] in * );
  try lia.

Lemma broadcast2_inv (op : Q -> Q -> Q) (u v w : array) :
  broadcast2 op u v = Ok w -> length u = length v -> w = map2 op u v.
Proof.
  intros H E. rewrite (broadcast2_same op u v E) in H. now injection H.
Qed.

Section Accepted.

Variable spsolve : dia_matrix -> array -> result array.
Variables (g : globals) (xvals fvals qvals : array).

(** A call that returns had at least two nodes. *)
Lemma accepted_nodes (fr : Locals.t) :
  spline_maker_locals spsolve g xvals fvals qvals = Ok fr ->
  length xvals = length fvals ->
  (2 <= length fvals)%nat.
Proof.
  intros H Hlen.
  destruct fvals as [|f0 [|f1 fs]]; cbn [length]; try lia; exfalso;
    destruct xvals as [|x0 [|x1 xs]]; try discriminate Hlen;
    unfold spline_maker_locals in H; cbn in H;
    destruct (ivals g); cbn in H; discriminate H.
Qed.

(** The locals of a call that returned, when the solver gave a vector of
    the length of the right-hand side. *)
Lemma locals_inv (m : nat) (fr : Locals.t) :
  spline_maker_locals spsolve g xvals fvals qvals = Ok fr ->
  length xvals = S m -> length fvals = S m ->
  length (tl (Locals.bvec fr)) = length (Locals.rhs fr) ->
  locals_spec spsolve g xvals fvals qvals m fr.
Proof.
  intros H Hx Hf Hs.
  assert (Hm : (1 <= m)%nat).
  { pose proof (accepted_nodes fr H). lia. }
  unfold spline_maker_locals in H.
  replace (Z.of_nat (length fvals) - 1)%Z with (Z.of_nat m) in H by lia.
  replace (Z.of_nat m - 1)%Z with (Z.of_nat (m - 1)) in H by lia.
  repeat rewrite slice_to_nat in H. unfold slice_from1 in H.
  rewrite Nat2Z.id in H.
  apply bind_inv in H as (df & Hdf & H).
  apply broadcast2_inv in Hdf; [|lengths].
  apply bind_inv in H as (dx & Hdx & H).
  apply broadcast2_inv in Hdx; [|lengths].
  assert (Ldf : length df = m) by (subst df; lengths).
  assert (Ldx : length dx = m) by (subst dx; lengths).
  apply bind_inv in H as (dfdx & Hdfdx & H).
  apply broadcast2_inv in Hdfdx; [|lengths].
  assert (Ldfdx : length dfdx = m) by (rewrite Hdfdx; lengths).
  apply bind_inv in H as (iv & Hiv & H).
  apply bind_inv in H as (rhs & Hrhs & H). rewrite slice_to_nat in Hrhs.
  apply broadcast2_inv in Hrhs; [|lengths].
  apply bind_inv in H as (s & Hsum & H). rewrite slice_to_nat in Hsum.
  apply broadcast2_inv in Hsum; [|lengths].
  apply bind_inv in H as (data & Hdata & H).
  apply bind_inv in H as (Bmat & HB & H).
  apply bind_inv in H as (sol & Hsol & H).
  apply bind_inv in H as (t1 & Ht1 & H).
  apply bind_inv in H as (u1 & Hu1 & H).
  apply bind_inv in H as (t2 & Ht2 & H).
  apply bind_inv in H as (cvec & Hc & H).
  apply bind_inv in H as (p & Hp & H).
  apply bind_inv in H as (u2 & Hu2 & H).
  apply bind_inv in H as (u3 & Hu3 & H).
  apply bind_inv in H as (avec & Ha & H).
  apply bind_inv in H as (svals & Hloop & H).
  injection H as <-. cbn [Locals.bvec Locals.rhs tl] in Hs.
  rewrite ?slice_to_nat in *.
  assert (Lrhs : length rhs = (m - 1)%nat) by (rewrite Hrhs; lengths).
  apply broadcast2_inv in Ht1; [|lengths].
  assert (Lt1 : length t1 = m) by (rewrite Ht1; lengths).
  apply broadcast2_inv in Hu1; [|lengths].
  assert (Lu1 : length u1 = m) by (rewrite Hu1; lengths).
  apply broadcast2_inv in Ht2; [|lengths].
  assert (Lt2: length t2 = m) by (rewrite Ht2; lengths).
  apply broadcast2_inv in Hc; [|lengths].
  assert (Lc: length cvec = m) by (rewrite Hc; lengths).
  apply broadcast2_inv in Hp; [|lengths].
  assert (Lp: length p = m) by (rewrite Hp; lengths).
  apply broadcast2_inv in Hu2; [|lengths].
  assert (Lu2: length u2 = m) by (rewrite Hu2; lengths).
  apply broadcast2_inv in Hu3; [|lengths].
  assert (Lu3: length u3 = m) by (rewrite Hu3; lengths).
  apply broadcast2_inv in Ha; [|lengths].
  unfold array2 in Hdata. cbn [forallb] in Hdata.
  assert (E1 : Nat.eqb (length (map (fun d : Q => d / 3) (tl dx)))
                 (length (map (Qmult (2 / 3)) s)) = true).
  { apply Nat.eqb_eq. rewrite Hsum. lengths. }
  assert (E2 : Nat.eqb (length (map (fun d : Q => d / 3) (firstn (m - 1) dx)))
                 (length (map (Qmult (2 / 3)) s)) = true).
  { apply Nat.eqb_eq. rewrite Hsum. lengths. }
  rewrite E1, E2 in Hdata. cbn in Hdata. injection Hdata as <-.
  unfold spdiags in HB.
  destruct (Z.ltb_spec (Z.of_nat (m - 1)) 0); [lia|].
  cbn in HB. injection HB as <-.
  unfold lookup in Hiv. destruct (ivals g) as [iv'|] eqn:Eg; [|discriminate].
  injection Hiv as ->.
  subst t1 u1 t2 p u2 u3 s.
  constructor; cbn; auto.
  all: eauto.
Qed.

(** A call on [m + 1 >= 2] nodes and values returns when [ivals] is bound
    to an array of the size of the queries. *)
Lemma spline_maker_locals_run (m : nat) (iv : array) :
  length xvals = S m -> length fvals = S m -> (1 <= m)%nat ->
  ivals g = Some iv -> length iv = length qvals ->
  solver_shape spsolve ->
  exists fr, spline_maker_locals spsolve g xvals fvals qvals = Ok fr /\
             length (tl (Locals.bvec fr)) = length (Locals.rhs fr).
Proof.
  intros Hx Hf Hm Hg Hiv Hsolve.
  unfold spline_maker_locals.
  replace (Z.of_nat (length fvals) - 1)%Z with (Z.of_nat m) by lia.
  replace (Z.of_nat m - 1)%Z with (Z.of_nat (m - 1)) by lia.
  rewrite Nat2Z.id. unfold slice_from1.
  rewrite !slice_to_nat.
  rewrite (broadcast2_same Qminus (tl fvals) (firstn m fvals)) by lengths.
  cbn [bind]. set (df := map2 Qminus (tl fvals) (firstn m fvals)).
  assert (Ldf : length df = m) by (subst df; lengths).
  rewrite (broadcast2_same Qminus (tl xvals) (firstn m xvals)) by lengths.
  cbn [bind]. set (dx := map2 Qminus (tl xvals) (firstn m xvals)).
  assert (Ldx : length dx = m) by (subst dx; lengths).
  rewrite (broadcast2_same Qdiv df dx) by lengths.
  cbn [bind]. set (dfdx := map2 Qdiv df dx).
  assert (Ldfdx : length dfdx = m) by (subst dfdx; lengths).
  rewrite Hg. cbn [lookup bind].
  rewrite !slice_to_nat.
  rewrite (broadcast2_same Qminus (tl dfdx) (firstn (m - 1) dfdx)) by lengths.
  cbn [bind]. set (rhs := map2 Qminus (tl dfdx) (firstn (m - 1) dfdx)).
  assert (Lrhs : length rhs = (m - 1)%nat) by (subst rhs; lengths).
  rewrite (broadcast2_same Qplus (tl dx) (firstn (m - 1) dx)) by lengths.
  cbn [bind]. set (s := map2 Qplus (tl dx) (firstn (m - 1) dx)).
  assert (Ls : length s = (m - 1)%nat) by (subst s; lengths).
  unfold array2. cbn [forallb].
  rewrite !(proj2 (Nat.eqb_eq _ _)) by lengths.
  cbn [andb bind]. unfold spdiags.
  destruct (Z.ltb_spec (Z.of_nat (m - 1)) 0); [lia|].
  cbn [orb negb length Nat.eqb bind].
  set (B := {| dia_data := _ |}).
  destruct (Hsolve B rhs) as (sol & -> & Lsol).
  { subst B. cbn [dia_shape]. now rewrite Lrhs. }
  cbn [bind tl].
  rewrite (broadcast2_same Qmult _ (0 :: sol)) by lengths.
  cbn [bind]. set (t1 := map2 Qmult _ (0 :: sol)).
  assert (Lt1 : length t1 = m) by (subst t1; lengths).
  rewrite (broadcast2_same Qminus dfdx t1) by lengths.
  cbn [bind]. set (u1 := map2 Qminus dfdx t1).
  assert (Lu1 : length u1 = m) by (subst u1; lengths).
  rewrite (broadcast2_same Qmult _ (sol ++ [0])) by lengths.
  cbn [bind]. set (t2 := map2 Qmult _ (sol ++ [0])).
  assert (Lt2 : length t2 = m) by (subst t2; lengths).
  rewrite (broadcast2_same Qminus u1 t2) by lengths.
  cbn [bind]. set (cvec := map2 Qminus u1 t2).
  assert (Lc : length cvec = m) by (subst cvec; lengths).
  rewrite (broadcast2_same Qmult dx (0 :: sol)) by lengths.
  cbn [bind]. set (p := map2 Qmult dx (0 :: sol)).
  assert (Lp : length p = m) by (subst p; lengths).
  rewrite (broadcast2_same Qminus dfdx p) by lengths.
  cbn [bind]. set (u2 := map2 Qminus dfdx p).
  assert (Lu2 : length u2 = m) by (subst u2; lengths).
  rewrite (broadcast2_same Qminus u2 cvec) by lengths.
  cbn [bind]. set (u3 := map2 Qminus u2 cvec).
  assert (Lu3 : length u3 = m) by (subst u3; lengths).
  rewrite (broadcast2_same Qdiv u3 _) by lengths.
  cbn [bind]. set (avec := map2 Qdiv u3 _).
  assert (La : length avec = m) by (subst avec; lengths).
  destruct (loop_run xvals fvals qvals avec (0 :: sol) cvec (seq 1 m)
              (zeros (length iv))) as (sv & ->).
  { intros j Hj. apply in_seq in Hj. cbn [length]. lengths. }
  { left. unfold zeros. now rewrite repeat_length. }
  cbn [bind]. eexists. split; [reflexivity|].
  cbn [Locals.bvec Locals.rhs tl]. congruence.
Qed.

End Accepted.

(** ** Algebra of one segment *)

(** [cubic'] and [cubic''] are the derivatives of [cubic]: the expansion
    of the cubic around [t]. *)
Lemma cubic_taylor (a b c d t h : Q) :
  cubic a b c d (t + h)
  == cubic a b c d t + cubic' a b c t * h + cubic'' a b t / 2 * h ^ 2
     + a * h ^ 3.
Proof. unfold cubic, cubic', cubic''. field. Qed.

Lemma segment_value_algebra (dx g b c f : Q) :
  ~ dx == 0 ->
  cubic ((g - dx * b - c) / dx ^ 2) b c f dx == f + g * dx.
Proof. intros H. unfold cubic. field. exact H. Qed.

Lemma segment_second_algebra (dx g b b' : Q) :
  ~ dx == 0 ->
  cubic'' ((g - dx * b - (g - 2 / 3 * dx * b - dx / 3 * b')) / dx ^ 2) b dx
  == 2 * b'.
Proof. intros H. unfold cubic''. field. exact H. Qed.

Lemma segment_first_algebra (d0 d1 g0 g1 b0 b1 b2 : Q) :
  ~ d0 == 0 ->
  d0 / 3 * b0 + 2 / 3 * (d0 + d1) * b1 + d1 / 3 * b2 == g1 - g0 ->
  cubic' ((g0 - d0 * b0 - (g0 - 2 / 3 * d0 * b0 - d0 / 3 * b1)) / d0 ^ 2)
    b0 (g0 - 2 / 3 * d0 * b0 - d0 / 3 * b1) d0
  == g1 - 2 / 3 * d1 * b1 - d1 / 3 * b2.
Proof.
  intros H E.
  assert (E' : g1 == g0 + (d0 / 3 * b0 + 2 / 3 * (d0 + d1) * b1 + d1 / 3 * b2))
    by (rewrite E; ring).
  rewrite E'. unfold cubic'. field. exact H.
Qed.

(** ** Sums *)

Lemma Qsum_app (l1 l2 : list Q) : Qsum (l1 ++ l2) == Qsum l1 + Qsum l2.
Proof.
  induction l1 as [|x l1 IH]; simpl.
  - ring.
  - rewrite IH. ring.
Qed.

Lemma Qsum_map_ext (f h : nat -> Q) (l : list nat) :
  (forall j, In j l -> f j == h j) -> Qsum (map f l) == Qsum (map h l).
Proof.
  induction l as [|x l IH]; simpl; intros H; [reflexivity|].
  rewrite (H x) by auto. rewrite IH by auto. reflexivity.
Qed.

Lemma Qsum_map_plus (f h : nat -> Q) (l : list nat) :
  Qsum (map (fun j => f j + h j) l) == Qsum (map f l) + Qsum (map h l).
Proof.
  induction l as [|x l IH]; simpl; [ring|]. rewrite IH. ring.
Qed.

(** A sum with one non-zero term. *)
Lemma Qsum_point (w : nat -> Q) (z : Z) (M : nat) :
  Qsum (map (fun j => if (z =? Z.of_nat j)%Z then w j else 0) (seq 0 M))
  == if ((0 <=? z) && (z <? Z.of_nat M))%Z then w (Z.to_nat z) else 0.
Proof.
  induction M as [|M IH].
  - simpl. destruct (0 <=? z)%Z eqn:E1, (z <? 0)%Z eqn:E2; simpl; try reflexivity.
    lia.
  - rewrite seq_S, map_app, Qsum_app, IH. cbn [map Qsum fold_right Nat.add].
    destruct (Z.eqb_spec z (Z.of_nat M)) as [->|Hne].
    + rewrite Nat2Z.id.
      destruct (Z.leb_spec 0 (Z.of_nat M)); [|lia].
      destruct (Z.ltb_spec (Z.of_nat M) (Z.of_nat M)); [lia|].
      destruct (Z.ltb_spec (Z.of_nat M) (Z.of_nat (S M))); [|lia].
      cbn [andb]. ring.
    + destruct (Z.leb_spec 0 z); cbn [andb]; [|ring].
      destruct (Z.ltb_spec z (Z.of_nat M)), (Z.ltb_spec z (Z.of_nat (S M)));
        try lia; ring.
Qed.

(** ** The coefficients entry by entry *)

Section Entries.

Variable spsolve : dia_matrix -> array -> result array.
Variables (g : globals) (xvals fvals qvals : array) (m : nat) (fr : Locals.t).

Hypothesis Hx : length xvals = S m.
Hypothesis Hf : length fvals = S m.
Hypothesis Hm : (1 <= m)%nat.
Hypothesis Hfr : locals_spec spsolve g xvals fvals qvals m fr.
Hypothesis Hsol : length (tl (Locals.bvec fr)) = length (Locals.rhs fr).

Lemma dx_length : length (Locals.dx fr) = m.
Proof. rewrite (ls_dx Hfr). lengths. Qed.

Lemma df_length : length (Locals.df fr) = m.
Proof. rewrite (ls_df Hfr). lengths. Qed.

Lemma dfdx_length : length (Locals.dfdx fr) = m.
Proof. rewrite (ls_dfdx Hfr), map2_length, dx_length, df_length. lia. Qed.

Lemma rhs_length : length (Locals.rhs fr) = (m - 1)%nat.
Proof.
  rewrite (ls_rhs Hfr), map2_length, length_tl, length_firstn, dfdx_length.
  lia.
Qed.

Lemma bvec_length : length (Locals.bvec fr) = m.
Proof.
  pose proof rhs_length as Hr. destruct (ls_bvec Hfr) as (sol & _ & E).
  rewrite E in *. cbn [tl length] in *. lia.
Qed.

Lemma cvec_length : length (Locals.cvec fr) = m.
Proof.
  pose proof dx_length. pose proof dfdx_length. pose proof bvec_length.
  rewrite (ls_cvec Hfr). lengths.
Qed.

Lemma avec_length : length (Locals.avec fr) = m.
Proof.
  pose proof dx_length. pose proof dfdx_length. pose proof bvec_length.
  pose proof cvec_length. rewrite (ls_avec Hfr). lengths.
Qed.

Lemma dx_nth (j : nat) :
  (j < m)%nat -> nth j (Locals.dx fr) 0 = delta xvals j.
Proof.
  intros Hj. rewrite (ls_dx Hfr), nth_map2 by lengths.
  now rewrite nth_tl, nth_firstn.
Qed.

Lemma df_nth (j : nat) :
  (j < m)%nat -> nth j (Locals.df fr) 0 = delta fvals j.
Proof.
  intros Hj. rewrite (ls_df Hfr), nth_map2 by lengths.
  now rewrite nth_tl, nth_firstn.
Qed.

Lemma dfdx_nth (j : nat) :
  (j < m)%nat -> nth j (Locals.dfdx fr) 0 = slope xvals fvals j.
Proof.
  intros Hj. pose proof dx_length. pose proof df_length.
  rewrite (ls_dfdx Hfr), nth_map2 by lia.
  now rewrite dx_nth, df_nth.
Qed.

Lemma rhs_nth (i : nat) :
  (S i < m)%nat ->
  nth i (Locals.rhs fr) 0
  = slope xvals fvals (S i) - slope xvals fvals i.
Proof.
  intros Hi. pose proof dfdx_length.
  rewrite (ls_rhs Hfr), nth_map2 by lengths.
  rewrite nth_tl, nth_firstn by lia.
  now rewrite !dfdx_nth by lia.
Qed.

(** The natural boundary value in front of the solution. *)
Lemma bvec_0 : nth 0 (Locals.bvec fr) 0 = 0.
Proof. destruct (ls_bvec Hfr) as (sol & _ & ->). reflexivity. Qed.

Lemma bvec_shift (j : nat) :
  (j < m)%nat ->
  nth j (tl (Locals.bvec fr) ++ [0]) 0 = nth (S j) (Locals.bvec fr) 0.
Proof.
  intros Hj. pose proof bvec_length as Hb.
  destruct (Nat.eq_dec (S j) m) as [E|E].
  - rewrite app_nth2 by lengths.
    rewrite (nth_overflow (Locals.bvec fr)) by lia.
    rewrite length_tl, Hb. replace (j - (m - 1))%nat with O by lia.
    reflexivity.
  - rewrite app_nth1 by lengths. apply nth_tl.
Qed.

Lemma cvec_nth (j : nat) :
  (j < m)%nat ->
  nth j (Locals.cvec fr) 0
  = slope xvals fvals j
    - 2 / 3 * delta xvals j * nth j (Locals.bvec fr) 0
    - delta xvals j / 3 * nth (S j) (Locals.bvec fr) 0.
Proof.
  intros Hj.
  pose proof dx_length. pose proof dfdx_length. pose proof bvec_length.
  rewrite (ls_cvec Hfr).
  rewrite !nth_map2 by lengths.
  rewrite !nth_map_lt by lia.
  now rewrite bvec_shift, dfdx_nth, dx_nth.
Qed.

Lemma avec_nth (j : nat) :
  (j < m)%nat ->
  nth j (Locals.avec fr) 0
  = (slope xvals fvals j - delta xvals j * nth j (Locals.bvec fr) 0
     - nth j (Locals.cvec fr) 0) / delta xvals j ^ 2.
Proof.
  intros Hj.
  pose proof dx_length. pose proof dfdx_length. pose proof bvec_length.
  pose proof cvec_length.
  rewrite (ls_avec Hfr).
  rewrite !nth_map2 by lengths.
  rewrite !nth_map_lt by lia.
  now rewrite dfdx_nth, dx_nth.
Qed.

(** *** The assembled system *)

Lemma diag_nth (j : nat) :
  (S j < m)%nat ->
  nth j (Locals.diag fr) 0 = 2 / 3 * (delta xvals (S j) + delta xvals j).
Proof.
  intros Hj. pose proof dx_length as Hd.
  rewrite (ls_diag Hfr).
  rewrite nth_map_lt by lengths.
  rewrite nth_map2 by lengths.
  rewrite nth_tl, nth_firstn by lia.
  now rewrite !dx_nth by lia.
Qed.

Lemma sub_nth (j : nat) :
  (S j < m)%nat ->
  nth j (map (fun d => d / 3) (tl (Locals.dx fr))) 0 = delta xvals (S j) / 3.
Proof.
  intros Hj. pose proof dx_length as Hd.
  rewrite nth_map_lt by lengths.
  now rewrite nth_tl, dx_nth by lia.
Qed.

Lemma super_nth (j : nat) :
  (S j < m)%nat ->
  nth j (map (fun d => d / 3) (firstn (m - 1) (Locals.dx fr))) 0
  = delta xvals j / 3.
Proof.
  intros Hj. pose proof dx_length as Hd.
  rewrite nth_map_lt by lengths.
  now rewrite nth_firstn, dx_nth by lia.
Qed.

(** An entry of the assembled matrix, from its three stored diagonals. *)
Lemma Bmat_get (i j : nat) :
  (S i < m)%nat -> (S j < m)%nat ->
  dia_get (Locals.Bmat fr) i j
  == (if (Z.of_nat i =? Z.of_nat j)%Z
      then 2 / 3 * (delta xvals (S j) + delta xvals j) else 0)
     + (if (Z.of_nat i - 1 =? Z.of_nat j)%Z then delta xvals (S j) / 3 else 0)
     + (if (Z.of_nat i + 1 =? Z.of_nat j)%Z then delta xvals j / 3 else 0).
Proof.
  intros Hi Hj. unfold dia_get.
  rewrite (ls_Bmat Hfr), (ls_data Hfr), (ls_dvals Hfr).
  cbn [dia_shape dia_data dia_offsets fst snd combine map Qsum fold_right].
  destruct (Z.ltb_spec (Z.of_nat i) (Z.of_nat (m - 1))); [|lia].
  destruct (Z.ltb_spec (Z.of_nat j) (Z.of_nat (m - 1))); [|lia].
  cbn [andb]. rewrite diag_nth, sub_nth, super_nth by lia.
  destruct (Z.eqb_spec 0 (Z.of_nat j - Z.of_nat i)),
    (Z.eqb_spec (Z.of_nat i) (Z.of_nat j)); try lia;
  destruct (Z.eqb_spec (-1) (Z.of_nat j - Z.of_nat i)),
    (Z.eqb_spec (Z.of_nat i - 1) (Z.of_nat j)); try lia;
  destruct (Z.eqb_spec 1 (Z.of_nat j - Z.of_nat i)),
    (Z.eqb_spec (Z.of_nat i + 1) (Z.of_nat j)); try lia; ring.
Qed.

Lemma Bmat_get_out (i j : nat) :
  (m <= S i)%nat \/ (m <= S j)%nat -> dia_get (Locals.Bmat fr) i j = 0.
Proof.
  intros H. unfold dia_get. rewrite (ls_Bmat Hfr). cbn [dia_shape fst snd].
  destruct (Z.ltb_spec (Z.of_nat i) (Z.of_nat (m - 1)));
    destruct (Z.ltb_spec (Z.of_nat j) (Z.of_nat (m - 1))); cbn [andb];
    try reflexivity. lia.
Qed.

(** Row [i] of the product of the assembled matrix with a vector. *)
Lemma Bmat_row_dot (v : array) (i : nat) :
  (S i < m)%nat ->
  dia_row_dot (Locals.Bmat fr) v i
  == delta xvals i / 3 * (match i with O => 0 | S k => nth k v 0 end)
     + 2 / 3 * (delta xvals i + delta xvals (S i)) * nth i v 0
     + delta xvals (S i) / 3 * (if (S (S i) <? m)%nat then nth (S i) v 0 else 0).
Proof.
  intros Hi. unfold dia_row_dot.
  replace (Z.to_nat (snd (dia_shape (Locals.Bmat fr)))) with (m - 1)%nat
    by (rewrite (ls_Bmat Hfr); cbn; lia).
  rewrite (Qsum_map_ext _
    (fun j => (if (Z.of_nat i =? Z.of_nat j)%Z
               then 2 / 3 * (delta xvals (S j) + delta xvals j) * nth j v 0
               else 0)
              + ((if (Z.of_nat i - 1 =? Z.of_nat j)%Z
                  then delta xvals (S j) / 3 * nth j v 0 else 0)
                 + (if (Z.of_nat i + 1 =? Z.of_nat j)%Z
                    then delta xvals j / 3 * nth j v 0 else 0)))).
  2:{ intros j Hj. apply in_seq in Hj. rewrite Bmat_get by lia.
      destruct (Z.of_nat i =? Z.of_nat j)%Z,
        (Z.of_nat i - 1 =? Z.of_nat j)%Z,
        (Z.of_nat i + 1 =? Z.of_nat j)%Z; ring. }
  rewrite Qsum_map_plus, Qsum_map_plus.
  rewrite (Qsum_point
    (fun j => 2 / 3 * (delta xvals (S j) + delta xvals j) * nth j v 0)).
  rewrite (Qsum_point (fun j => delta xvals (S j) / 3 * nth j v 0)).
  rewrite (Qsum_point (fun j => delta xvals j / 3 * nth j v 0)).
  destruct (Z.leb_spec 0 (Z.of_nat i)); [|lia].
  destruct (Z.ltb_spec (Z.of_nat i) (Z.of_nat (m - 1))); [|lia].
  destruct (Z.leb_spec 0 (Z.of_nat i + 1)); [|lia].
  cbn [andb]. rewrite Nat2Z.id.
  replace (Z.to_nat (Z.of_nat i + 1)) with (S i) by lia.
  destruct i as [|k].
  - destruct (Z.leb_spec 0 (Z.of_nat 0 - 1)); [lia|]. cbn [andb].
    destruct (Z.ltb_spec (Z.of_nat 0 + 1) (Z.of_nat (m - 1)));
      destruct (Nat.ltb_spec 2 m); try lia; ring.
  - destruct (Z.leb_spec 0 (Z.of_nat (S k) - 1)); [|lia].
    destruct (Z.ltb_spec (Z.of_nat (S k) - 1) (Z.of_nat (m - 1))); [|lia].
    cbn [andb]. replace (Z.to_nat (Z.of_nat (S k) - 1)) with k by lia.
    destruct (Z.ltb_spec (Z.of_nat (S k) + 1) (Z.of_nat (m - 1)));
      destruct (Nat.ltb_spec (S (S (S k))) m); try lia; ring.
Qed.

(** Row [i] of the solved system, in terms of the curvatures [b_i],
    [b_{i+1}] and [b_{i+2}], with [b_0 = 0] and [b_m] read as [0]. *)
Lemma curvature_equation (i : nat) :
  exact_solve fr -> (S i < m)%nat ->
  delta xvals i / 3 * nth i (Locals.bvec fr) 0
  + 2 / 3 * (delta xvals i + delta xvals (S i)) * nth (S i) (Locals.bvec fr) 0
  + delta xvals (S i) / 3 * nth (S (S i)) (Locals.bvec fr) 0
  == slope xvals fvals (S i) - slope xvals fvals i.
Proof.
  intros [Hl He] Hi.
  pose proof rhs_length as Hr. pose proof bvec_length as Hb.
  rewrite <- rhs_nth by lia. rewrite <- He by lia.
  rewrite Bmat_row_dot by lia.
  rewrite nth_tl.
  assert (E1 : match i with O => 0 | S k => nth k (tl (Locals.bvec fr)) 0 end
               = nth i (Locals.bvec fr) 0).
  { destruct i; [now rewrite bvec_0 | apply nth_tl]. }
  assert (E2 : (if (S (S i) <? m)%nat
                then nth (S i) (tl (Locals.bvec fr)) 0 else 0)
               = nth (S (S i)) (Locals.bvec fr) 0).
  { destruct (Nat.ltb_spec (S (S i)) m); [apply nth_tl|].
    now rewrite nth_overflow by lia. }
  rewrite E1, E2. reflexivity.
Qed.

End Entries.

(** ** Accepted calls *)

Lemma accepted_spec spsolve g xvals fvals qvals fr :
  spline_maker_locals spsolve g xvals fvals qvals = Ok fr ->
  length xvals = length fvals ->
  length (tl (Locals.bvec fr)) = length (Locals.rhs fr) ->
  exists m, length xvals = S m /\ length fvals = S m /\ (1 <= m)%nat /\
            locals_spec spsolve g xvals fvals qvals m fr.
Proof.
  intros Hrun Hlen Hs. pose proof (accepted_nodes _ _ _ _ _ _ Hrun Hlen) as Hn.
  exists (length fvals - 1)%nat.
  assert (Hf : length fvals = S (length fvals - 1)) by lia.
  assert (Hx : length xvals = S (length fvals - 1)) by lia.
  split; [exact Hx|]. split; [exact Hf|]. split; [lia|].
  exact (locals_inv _ _ _ _ _ _ _ Hrun Hx Hf Hs).
Qed.

Lemma later_pass_misses (xs : array) (j j' : nat) (q : Q) :
  increasingb xs = true -> in_interval xs j q ->
  (j < j')%nat -> (j' < length xs)%nat -> ~ in_interval xs j' q.
Proof.
  intros Hinc [_ Hq] Hj Hj' [Hl _].
  assert (Hle : nth j xs 0 <= nth (j' - 1) xs 0).
  { destruct (Nat.eq_dec j (j' - 1)) as [<-|Hne]; [apply Qle_refl|].
    apply Qlt_le_weak. apply increasingb_nth; auto; lia. }
  apply (Qlt_irrefl q).
  apply Qlt_le_trans with (nth j xs 0); auto.
  apply Qle_trans with (nth (j' - 1) xs 0); auto.
Qed.

Lemma seq_split_at (j m : nat) :
  (1 <= j <= m)%nat -> seq 1 m = seq 1 (j - 1) ++ j :: seq (S j) (m - j).
Proof.
  intros H. replace m with ((j - 1) + S (m - j))%nat at 1 by lia.
  rewrite seq_app. cbn [seq]. f_equal.
  replace (1 + (j - 1))%nat with j by lia. reflexivity.
Qed.

(** The array the loop writes to has the size of the module-level
    [ivals]. *)
Lemma accepted_svals spsolve g xvals fvals qvals m fr :
  locals_spec spsolve g xvals fvals qvals m fr ->
  exists iv, ivals g = Some iv /\ length (Locals.svals fr) = length iv.
Proof.
  intros Hfr. destruct (ls_svals Hfr) as (iv & Hg & Hloop).
  pose proof (loop_length _ _ _ _ _ _ _ _ _ Hloop) as Hl.
  unfold zeros in Hl. rewrite repeat_length in Hl.
  exists iv. auto.
Qed.

(** A query in the interval of pass [jj] gets the cubic of segment
    [jj - 1]. *)
Lemma accepted_hit spsolve g xvals fvals qvals m fr (jj i : nat) :
  locals_spec spsolve g xvals fvals qvals m fr ->
  length xvals = S m -> increasingb xvals = true ->
  (1 <= jj <= m)%nat -> (i < length qvals)%nat ->
  in_interval xvals jj (nth i qvals 0) ->
  nth i (Locals.svals fr) 0
  = segment xvals fvals (Locals.avec fr) (Locals.bvec fr) (Locals.cvec fr)
      (jj - 1) (nth i qvals 0).
Proof.
  intros Hfr Hx Hinc Hjj Hi Hin.
  destruct (ls_svals Hfr) as (iv & Hg & Hloop).
  rewrite (seq_split_at jj m Hjj) in Hloop.
  apply (loop_hit _ _ _ _ _ _ _ _ _ _ _ _ Hloop); auto.
  intros j' Hj'. apply in_seq in Hj'.
  apply later_pass_misses with (j := jj); auto; lia.
Qed.

(** A query in none of the intervals keeps the initial zero. *)
Lemma accepted_miss spsolve g xvals fvals qvals m fr (i : nat) :
  locals_spec spsolve g xvals fvals qvals m fr ->
  (1 <= m)%nat -> (i < length qvals)%nat ->
  (forall jj, (1 <= jj <= m)%nat -> ~ in_interval xvals jj (nth i qvals 0)) ->
  nth i (Locals.svals fr) 0 = 0.
Proof.
  intros Hfr Hm Hi Hout.
  destruct (ls_svals Hfr) as (iv & Hg & Hloop).
  rewrite (loop_keep _ _ _ _ _ _ _ _ _ _ Hloop).
  - unfold zeros. rewrite nth_repeat. reflexivity.
  - exact Hi.
  - intros j Hj. apply in_seq in Hj. apply Hout. lia.
Qed.

(** A call on at least three nodes returns, and its locals are as
    [locals_spec] says. *)
Lemma valid_call_spec
  (spsolve : dia_matrix -> array -> result array) (g : globals)
  (xvals fvals qvals iv : array) :
  solver_shape spsolve ->
  length xvals = length fvals -> (3 <= length fvals)%nat ->
  ivals g = Some iv -> length iv = length qvals ->
  exists fr m,
    spline_maker_locals spsolve g xvals fvals qvals = Ok fr /\
    length (tl (Locals.bvec fr)) = length (Locals.rhs fr) /\
    length xvals = S m /\ length fvals = S m /\ (2 <= m)%nat /\
    locals_spec spsolve g xvals fvals qvals m fr.
Proof.
  intros Hsolve Hlen Hn Hg Hiv.
  assert (Hf : length fvals = S (length fvals - 1)) by lia.
  assert (Hx : length xvals = S (length fvals - 1)) by lia.
  destruct (spline_maker_locals_run spsolve g xvals fvals qvals _ iv
              Hx Hf ltac:(lia) Hg Hiv Hsolve) as (fr & Hrun & Hs).
  exists fr, (length fvals - 1)%nat.
  split; [exact Hrun|]. split; [exact Hs|].
  split; [exact Hx|]. split; [exact Hf|]. split; [lia|].
  exact (locals_inv _ _ _ _ _ _ _ Hrun Hx Hf Hs).
Qed.

Lemma system_entry_get
  (spsolve : dia_matrix -> array -> result array) (g : globals)
  (xvals fvals qvals : array) (m : nat) (fr : Locals.t) (i j : nat) :
  length xvals = S m -> length fvals = S m -> (1 <= m)%nat ->
  locals_spec spsolve g xvals fvals qvals m fr ->
  length (tl (Locals.bvec fr)) = length (Locals.rhs fr) ->
  (S i < m)%nat -> (S j < m)%nat ->
  dia_get (Locals.Bmat fr) i j == system_entry xvals i j.
Proof.
  intros Hx Hf Hm Hfr Hs Hi Hj.
  rewrite (Bmat_get _ _ _ _ _ _ _ Hx Hf Hm Hfr Hs i j Hi Hj).
  unfold system_entry.
  destruct (Nat.eqb_spec j i) as [->|Hne].
  - rewrite Z.eqb_refl.
    destruct (Z.eqb_spec (Z.of_nat i - 1) (Z.of_nat i)); [lia|].
    destruct (Z.eqb_spec (Z.of_nat i + 1) (Z.of_nat i)); [lia|]. ring.
  - destruct (Z.eqb_spec (Z.of_nat i) (Z.of_nat j)); [lia|].
    destruct (Nat.eqb_spec j (S i)) as [->|Hne2].
    + destruct (Z.eqb_spec (Z.of_nat i - 1) (Z.of_nat (S i))); [lia|].
      destruct (Z.eqb_spec (Z.of_nat i + 1) (Z.of_nat (S i))); [|lia]. ring.
    + destruct (Z.eqb_spec (Z.of_nat i + 1) (Z.of_nat j)); [lia|].
      destruct (Nat.eqb_spec (S j) i) as [<-|Hne3].
      * destruct (Z.eqb_spec (Z.of_nat (S j) - 1) (Z.of_nat j)); [|lia]. ring.
      * destruct (Z.eqb_spec (Z.of_nat i - 1) (Z.of_nat j)); [lia|]. ring.
Qed.

Lemma system_entry_sym (xs : array) (i j : nat) :
  system_entry xs i j == system_entry xs j i.
Proof.
  unfold system_entry.
  destruct (Nat.eqb_spec j i) as [->|H1].
  - rewrite Nat.eqb_refl. reflexivity.
  - destruct (Nat.eqb_spec i j); [congruence|].
    destruct (Nat.eqb_spec j (S i)) as [->|H2].
    + destruct (Nat.eqb_spec i (S (S i))); [lia|].
      rewrite Nat.eqb_refl. reflexivity.
    + destruct (Nat.eqb_spec (S j) i) as [<-|H3].
      * rewrite Nat.eqb_refl. reflexivity.
      * destruct (Nat.eqb_spec i (S j)); [congruence|].
        destruct (Nat.eqb_spec (S i) j); [congruence|]. reflexivity.
Qed.

Lemma outside_no_interval (xs : array) (q : Q) (jj : nat) :
  increasingb xs = true -> (1 <= jj)%nat -> (jj < length xs)%nat ->
  q < nth 0 xs 0 \/ nth (length xs - 1) xs 0 <= q ->
  ~ in_interval xs jj q.
Proof.
  intros Hinc H1 H2 [Hq|Hq] [Hl Hr].
  - assert (Hle : nth 0 xs 0 <= nth (jj - 1) xs 0).
    { destruct (Nat.eq_dec 0 (jj - 1)) as [<-|Hne]; [apply Qle_refl|].
      apply Qlt_le_weak. apply increasingb_nth; auto; lia. }
    apply (Qlt_irrefl q). apply Qlt_le_trans with (nth 0 xs 0); auto.
    apply Qle_trans with (nth (jj - 1) xs 0); auto.
  - assert (Hle : nth jj xs 0 <= nth (length xs - 1) xs 0).
    { destruct (Nat.eq_dec jj (length xs - 1)) as [<-|Hne]; [apply Qle_refl|].
      apply Qlt_le_weak. apply increasingb_nth; auto; lia. }
    apply (Qlt_irrefl q). apply Qlt_le_trans with (nth jj xs 0); auto.
    apply Qle_trans with (nth (length xs - 1) xs 0); auto.
Qed.

(** ** The exact solver *)

Lemma thomas_length (rows : list (Q * Q * Q * Q)) (cp rp : Q) :
  length (thomas rows cp rp) = length rows.
Proof.
  revert cp rp. induction rows as [|[[[a d] c] r] rows IH]; intros cp rp.
  - reflexivity.
  - cbn [thomas length]. now rewrite IH.
Qed.

Lemma tridiag_solve_shape : solver_shape tridiag_solve.
Proof.
  intros A r HA. unfold tridiag_solve. rewrite HA. cbn [fst snd].
  rewrite Z.eqb_refl. cbn [andb]. eexists. split; [reflexivity|].
  now rewrite length_map, thomas_length, length_map, length_seq.
Qed.

Lemma ex_locals_run :
  spline_maker_locals tridiag_solve ex_globals ex_xvals ex_fvals ex_qvals
  = Ok ex_locals.
Proof. vm_compute. reflexivity. Qed.

Lemma ex_exact_solve : exact_solve ex_locals.
Proof.
  split; [reflexivity|].
  intros i Hi. destruct i as [|[|i]];
    [vm_compute; reflexivity | vm_compute; reflexivity |].
  exfalso. vm_compute in Hi. lia.
Qed.


(** ** Chebyshev nodes *)

Lemma xcheb_angle_bounds (n j : nat) :
  (j <= n)%nat ->
  (0 < (2 * INR j + 1) * PI / (2 * INR n + 2) < PI)%R.
Proof.
  intros Hj.
  assert (Hn : (0 <= INR j)%R) by apply pos_INR.
  assert (Hjn : (INR j <= INR n)%R) by now apply le_INR.
  pose proof PI_RGT_0 as Hpi.
  assert (Hd : (0 < 2 * INR n + 2)%R) by lra.
  split.
  - apply Rdiv_lt_0_compat; [|exact Hd].
    apply Rmult_lt_0_compat; lra.
  - apply (Rmult_lt_reg_r (2 * INR n + 2)); [exact Hd|].
    unfold Rdiv. rewrite Rmult_assoc, Rinv_l by lra.
    rewrite Rmult_1_r, (Rmult_comm PI).
    apply Rmult_lt_compat_r; lra.
Qed.

Lemma xcheb_nth (n j : nat) :
  (j <= n)%nat ->
  nth j (xcheb n) 0%R = cos ((2 * INR j + 1) * PI / (2 * INR n + 2))%R.
Proof.
  intros Hj. unfold xcheb.
  rewrite (nth_indep _ 0%R ((fun j => cos ((2 * INR j + 1) * PI / (2 * INR n + 2))%R) O))
    by (rewrite length_map, length_seq; lia).
  rewrite (map_nth (fun j => cos ((2 * INR j + 1) * PI / (2 * INR n + 2))%R)).
  rewrite seq_nth by lia. reflexivity.
Qed.

(** ** Diagonal storage *)

(** The example of the SciPy documentation of [spdiags]. *)
Example spdiags_doc_example :
  let data := [[1; 2; 3; 4]; [1; 2; 3; 4]; [1; 2; 3; 4]] in
  match spdiags data [0; -1; 2]%Z 4 4 with
  | Ok A =>
      map (fun i => map (dia_get A i) (seq 0 4)) (seq 0 4)
      = [[1; 0; 3; 0]; [1; 2; 0; 4]; [0; 2; 3; 0]; [0; 0; 3; 4]]
  | Raise _ => False
  end.
Proof. vm_compute. reflexivity. Qed.

(** ** Queries between the nodes *)

(** A query between the first and the last node is in the interval of one
    pass. *)
Lemma locate_interval (xs : array) (q : Q) (m : nat) :
  (m < length xs)%nat -> nth 0 xs 0 <= q -> q < nth m xs 0 ->
  exists jj, (1 <= jj <= m)%nat /\ in_interval xs jj q.
Proof.
  intros Hm Hl. induction m as [|m IH]; intros Hr.
  - exfalso. apply (Qlt_irrefl q). now apply Qlt_le_trans with (nth 0 xs 0).
  - destruct (Qlt_le_dec q (nth m xs 0)) as [Hlt|Hge].
    + destruct IH as (jj & Hjj & Hin); auto; try lia.
      exists jj. split; [lia|exact Hin].
    + exists (S m). split; [lia|]. unfold in_interval.
      replace (S m - 1)%nat with m by lia. auto.
Qed.

(** ** Correctness of the exact solver *)

Lemma thomas_correct (rows : list (Q * Q * Q * Q)) (cp rp : Q) :
  Forall dominant rows -> 0 <= cp -> cp <= 1 ->
  rows_hold rows (rp - cp * hd 0 (thomas rows cp rp)) (thomas rows cp rp).
Proof.
  revert cp rp. induction rows as [|[[[a d] c] r] rest IH];
    intros cp rp Hdom Hcp0 Hcp1.
  - exact I.
  - inversion Hdom as [|? ? Hrow Hrest]; subst.
    cbn in Hrow. destruct Hrow as (Ha & Hc & Hd).
    assert (Hden : 0 < d - a * cp) by nra.
    cbn [thomas rows_hold hd].
    set (xs' := thomas rest (c / (d - a * cp)) ((r - a * rp) / (d - a * cp))).
    split.
    + field. intros E. rewrite E in Hden. exact (Qlt_irrefl 0 Hden).
    + apply IH; auto.
      * apply Qle_shift_div_l; [exact Hden|]. nra.
      * apply Qle_shift_div_r; [exact Hden|]. nra.
Qed.

Lemma rows_hold_length (rows : list (Q * Q * Q * Q)) (xprev : Q) (xs : array) :
  rows_hold rows xprev xs -> length xs = length rows.
Proof.
  revert xprev xs. induction rows as [|[[[a d] c] r] rest IH];
    intros xprev [|x xs] H; cbn in H; try contradiction; auto.
  destruct H as [_ H]. cbn [length]. f_equal. exact (IH _ _ H).
Qed.

(** The equations of [rows_hold] row by row. *)
Lemma rows_hold_nth (rows : list (Q * Q * Q * Q)) (xprev : Q) (xs : array)
  (k : nat) :
  rows_hold rows xprev xs -> (k < length rows)%nat ->
  let '(a, d, c, r) := nth k rows (0, 0, 0, 0) in
  a * (match k with O => xprev | S k' => nth k' xs 0 end)
  + d * nth k xs 0 + c * nth (S k) xs 0 == r.
Proof.
  revert xprev xs k. induction rows as [|[[[a d] c] r] rest IH];
    intros xprev [|x xs] k H Hk; cbn in H; try contradiction;
    cbn [length] in Hk; [lia|].
  destruct H as [E H]. destruct k as [|k].
  - cbn [nth]. destruct xs; exact E.
  - specialize (IH x xs k H ltac:(lia)). cbn [nth].
    destruct (nth k rest (0, 0, 0, 0)) as [[[a' d'] c'] r'].
    destruct k; exact IH.
Qed.

Lemma nth_map_Qred (xs : array) (k : nat) :
  nth k (map Qred xs) 0 == nth k xs 0.
Proof.
  change 0 with (Qred 0) at 1. rewrite map_nth. apply Qred_correct.
Qed.

Lemma nth_tridiag_rows (A : dia_matrix) (r : array) (k : nat) :
  (k < length r)%nat ->
  nth k (map (tridiag_row A r) (seq 0 (length r))) (0, 0, 0, 0)
  = tridiag_row A r k.
Proof.
  intros Hk.
  rewrite (nth_indep _ (0, 0, 0, 0) (tridiag_row A r 0))
    by now rewrite length_map, length_seq.
  rewrite map_nth, seq_nth by lia. reflexivity.
Qed.

Section ExactSolver.

Variables (g : globals) (xvals fvals qvals : array) (m : nat) (fr : Locals.t).

Hypothesis Hx : length xvals = S m.
Hypothesis Hf : length fvals = S m.
Hypothesis Hm : (1 <= m)%nat.
Hypothesis Hfr : locals_spec tridiag_solve g xvals fvals qvals m fr.
Hypothesis Hsol : length (tl (Locals.bvec fr)) = length (Locals.rhs fr).
Hypothesis Hinc : increasingb xvals = true.

Lemma Bmat_diag (i : nat) :
  (S i < m)%nat ->
  dia_get (Locals.Bmat fr) i i
  == 2 / 3 * (delta xvals i + delta xvals (S i)).
Proof.
  intros Hi.
  rewrite (system_entry_get _ _ _ _ _ _ _ i i Hx Hf Hm Hfr Hsol Hi Hi).
  unfold system_entry. now rewrite Nat.eqb_refl.
Qed.

Lemma Bmat_sub (k : nat) :
  (S (S k) < m)%nat ->
  dia_get (Locals.Bmat fr) (S k) k == delta xvals (S k) / 3.
Proof.
  intros Hi.
  rewrite (system_entry_get _ _ _ _ _ _ _ (S k) k Hx Hf Hm Hfr Hsol)
    by lia.
  unfold system_entry.
  destruct (Nat.eqb_spec k (S k)); [lia|].
  destruct (Nat.eqb_spec k (S (S k))); [lia|].
  now rewrite Nat.eqb_refl.
Qed.

Lemma Bmat_super (i : nat) :
  (S (S i) < m)%nat ->
  dia_get (Locals.Bmat fr) i (S i) == delta xvals (S i) / 3.
Proof.
  intros Hi.
  rewrite (system_entry_get _ _ _ _ _ _ _ i (S i) Hx Hf Hm Hfr Hsol)
    by lia.
  unfold system_entry.
  destruct (Nat.eqb_spec (S i) i); [lia|].
  now rewrite Nat.eqb_refl.
Qed.

Lemma system_rows_dominant :
  Forall dominant
    (map (tridiag_row (Locals.Bmat fr) (Locals.rhs fr))
       (seq 0 (length (Locals.rhs fr)))).
Proof.
  pose proof (rhs_length _ _ _ _ _ _ _ Hx Hf Hm Hfr Hsol) as Hr.
  apply Forall_forall. intros row Hrow.
  apply in_map_iff in Hrow as (i & <- & Hi). apply in_seq in Hi.
  unfold tridiag_row, dominant.
  pose proof (delta_pos xvals i Hinc ltac:(lia)) as Hd0.
  pose proof (delta_pos xvals (S i) Hinc ltac:(lia)) as Hd1.
  rewrite Bmat_diag by lia.
  assert (Hsup : dia_get (Locals.Bmat fr) i (S i)
                 == (if (S (S i) <? m)%nat then delta xvals (S i) / 3 else 0)).
  { destruct (Nat.ltb_spec (S (S i)) m).
    - now apply Bmat_super.
    - rewrite (Bmat_get_out _ _ _ _ _ _ _ Hx Hf Hm Hfr Hsol) by lia.
      reflexivity. }
  rewrite Hsup.
  assert (Ht0 : 0 < delta xvals i / 3) by (apply Qlt_shift_div_l; lra).
  assert (Ht1 : 0 < delta xvals (S i) / 3) by (apply Qlt_shift_div_l; lra).
  assert (E : 2 / 3 * (delta xvals i + delta xvals (S i))
              == 2 * (delta xvals i / 3) + 2 * (delta xvals (S i) / 3))
    by field.
  rewrite E.
  set (t0 := delta xvals i / 3) in *. set (t1 := delta xvals (S i) / 3) in *.
  destruct i as [|k].
  - destruct (S (S 0) <? m)%nat; lra.
  - rewrite Bmat_sub by lia. fold t0.
    destruct (S (S (S k)) <? m)%nat; lra.
Qed.

(** The exact solver solves the assembled system. *)
Lemma tridiag_solve_exact : exact_solve fr.
Proof.
  pose proof (rhs_length _ _ _ _ _ _ _ Hx Hf Hm Hfr Hsol) as Hr.
  split; [exact Hsol|]. intros i Hi.
  destruct (ls_bvec Hfr) as (sol & Hsolve & Hb).
  unfold tridiag_solve in Hsolve.
  destruct (_ && _)%bool in Hsolve; [|discriminate].
  injection Hsolve as <-. rewrite Hb. cbn [tl].
  set (rows := map (tridiag_row (Locals.Bmat fr) (Locals.rhs fr))
                 (seq 0 (length (Locals.rhs fr)))) in *.
  pose proof (thomas_correct rows 0 0 system_rows_dominant
                ltac:(lra) ltac:(lra)) as Hrows.
  pose proof (rows_hold_nth rows _ _ i Hrows) as Hrow.
  unfold rows in Hrow at 1 2. rewrite length_map, length_seq in Hrow.
  specialize (Hrow Hi). rewrite nth_tridiag_rows in Hrow by exact Hi.
  unfold tridiag_row in Hrow.
  rewrite (Bmat_row_dot _ _ _ _ _ _ _ Hx Hf Hm Hfr Hsol) by lia.
  rewrite <- Hrow. rewrite Bmat_diag by lia.
  rewrite !nth_map_Qred.
  assert (Hsup : dia_get (Locals.Bmat fr) i (S i) * nth (S i) (thomas rows 0 0) 0
                 == delta xvals (S i) / 3
                    * (if (S (S i) <? m)%nat
                       then nth (S i) (map Qred (thomas rows 0 0)) 0 else 0)).
  { destruct (Nat.ltb_spec (S (S i)) m).
    - rewrite Bmat_super by lia. now rewrite nth_map_Qred.
    - rewrite (Bmat_get_out _ _ _ _ _ _ _ Hx Hf Hm Hfr Hsol) by lia. ring. }
  rewrite Hsup.
  destruct i as [|k].
  - ring.
  - rewrite Bmat_sub by lia. rewrite nth_map_Qred. ring.
Qed.

End ExactSolver.

(** With the exact solver, a call on at least three strictly increasing
    nodes returns and the solver's answer solves the assembled system. *)
Lemma exact_solver_accepts (g : globals) (xvals fvals qvals iv : array) :
  length xvals = length fvals -> (3 <= length fvals)%nat ->
  increasingb xvals = true ->
  ivals g = Some iv -> length iv = length qvals ->
  exists fr,
    spline_maker_locals tridiag_solve g xvals fvals qvals = Ok fr /\
    exact_solve fr.
Proof.
  intros Hlen Hn Hinc Hg Hiv.
  destruct (valid_call_spec tridiag_solve g xvals fvals qvals iv
              tridiag_solve_shape Hlen Hn Hg Hiv)
    as (fr & m & Hrun & Hs & Hx & Hf & Hm & Hfr).
  exists fr. split; [exact Hrun|].
  apply (tridiag_solve_exact g xvals fvals qvals m fr Hx Hf ltac:(lia) Hfr Hs
           Hinc).
Qed.

(** * The statements of the specification *)

(** ** The spline system and its coefficients *)

(** C2. On a sample set with at least three strictly increasing nodes
    ([n >= 2] intervals), [spline_maker] runs and assembles a system for the
    [n - 1] interior curvatures: the matrix [Bmat] is square of that size,
    its entry in row [i] and column [j] is [2/3*(dx_i + dx_{i+1})] on the
    diagonal, [dx_{i+1}/3] just above it, [dx_i/3] just below it and zero
    elsewhere, it is symmetric, the right-hand side is [g_{i+1} - g_i], and
    [bvec] is the solver's answer for that system with [0] in front. *)
Theorem spline_system_assembled
  (spsolve : dia_matrix -> array -> result array) (g : globals)
  (xvals fvals qvals iv : array) (i j : nat) :
  solver_shape spsolve ->
  length xvals = length fvals -> (3 <= length fvals)%nat ->
  increasingb xvals = true ->
  ivals g = Some iv -> length iv = length qvals ->
  (i < length fvals - 2)%nat -> (j < length fvals - 2)%nat ->
  exists fr sol,
    spline_maker_locals spsolve g xvals fvals qvals = Ok fr /\
    dia_shape (Locals.Bmat fr)
    = (Z.of_nat (length fvals - 2), Z.of_nat (length fvals - 2)) /\
    length (Locals.rhs fr) = (length fvals - 2)%nat /\
    dia_get (Locals.Bmat fr) i j == system_entry xvals i j /\
    dia_get (Locals.Bmat fr) i j == dia_get (Locals.Bmat fr) j i /\
    nth i (Locals.rhs fr) 0
    = slope xvals fvals (S i) - slope xvals fvals i /\
    spsolve (Locals.Bmat fr) (Locals.rhs fr) = Ok sol /\
    length sol = (length fvals - 2)%nat /\
    Locals.bvec fr = 0 :: sol.
Proof.
  intros Hsolve Hlen Hn Hinc Hg Hiv Hi Hj.
  destruct (valid_call_spec spsolve g xvals fvals qvals iv Hsolve Hlen Hn Hg Hiv)
    as (fr & m & Hrun & Hs & Hx & Hf & Hm & Hfr).
  assert (Hm1 : (1 <= m)%nat) by lia.
  replace (length fvals - 2)%nat with (m - 1)%nat in * by lia.
  destruct (ls_bvec Hfr) as (sol & Hsol & Hb).
  exists fr, sol.
  pose proof (rhs_length _ _ _ _ _ _ _ Hx Hf Hm1 Hfr Hs) as Hr.
  split; [exact Hrun|].
  split; [now rewrite (ls_Bmat Hfr)|].
  split; [exact Hr|].
  split; [apply (system_entry_get _ _ _ _ _ _ _ i j Hx Hf Hm1 Hfr Hs); lia|].
  split.
  { rewrite (system_entry_get _ _ _ _ _ _ _ i j Hx Hf Hm1 Hfr Hs) by lia.
    rewrite (system_entry_get _ _ _ _ _ _ _ j i Hx Hf Hm1 Hfr Hs) by lia.
    apply system_entry_sym. }
  split; [apply (rhs_nth _ _ _ _ _ _ _ Hx Hf Hm1 Hfr Hs); lia|].
  split; [exact Hsol|].
  split; [|exact Hb].
  rewrite Hb in Hs. cbn [tl] in Hs. lia.
Qed.


Lemma spline_system_assembled_witness :
  exists fr sol,
    spline_maker_locals tridiag_solve ex_globals ex_xvals ex_fvals ex_qvals
    = Ok fr /\
    dia_shape (Locals.Bmat fr) = (2%Z, 2%Z) /\
    length (Locals.rhs fr) = 2%nat /\
    dia_get (Locals.Bmat fr) 0 1 == system_entry ex_xvals 0 1 /\
    dia_get (Locals.Bmat fr) 0 1 == dia_get (Locals.Bmat fr) 1 0 /\
    nth 0 (Locals.rhs fr) 0
    = slope ex_xvals ex_fvals 1 - slope ex_xvals ex_fvals 0 /\
    tridiag_solve (Locals.Bmat fr) (Locals.rhs fr) = Ok sol /\
    length sol = 2%nat /\
    Locals.bvec fr = 0 :: sol.
Proof.
  apply (spline_system_assembled tridiag_solve ex_globals ex_xvals ex_fvals
           ex_qvals ex_qvals 0 1);
    [ exact tridiag_solve_shape | reflexivity | simpl; lia | reflexivity
    | reflexivity | reflexivity | simpl; lia | simpl; lia ].
Defined.


(** C3. For a call that returned on strictly increasing nodes, with a
    solver answer of the length of the right-hand side: [b_n] reads as [0],
    [c_j = g_j - dx_j/3*(2*b_j + b_{j+1})],
    [a_j = (g_j - dx_j*b_j - c_j)/dx_j^2], and the constant term of the
    cubic written for a query of the interval [j] is [f_j]. *)
Theorem spline_coefficients
  (spsolve : dia_matrix -> array -> result array) (g : globals)
  (xvals fvals qvals : array) (fr : Locals.t) (j : nat) :
  spline_maker_locals spsolve g xvals fvals qvals = Ok fr ->
  length xvals = length fvals ->
  increasingb xvals = true ->
  length (tl (Locals.bvec fr)) = length (Locals.rhs fr) ->
  (j < length fvals - 1)%nat ->
  let a := fun k => nth k (Locals.avec fr) 0 in
  let b := fun k => nth k (Locals.bvec fr) 0 in
  let c := fun k => nth k (Locals.cvec fr) 0 in
  b (length fvals - 1)%nat = 0 /\
  c j == slope xvals fvals j - delta xvals j / 3 * (2 * b j + b (S j)) /\
  a j == (slope xvals fvals j - delta xvals j * b j - c j) / delta xvals j ^ 2 /\
  forall i, (i < length qvals)%nat ->
    in_interval xvals (S j) (nth i qvals 0) ->
    nth i (Locals.svals fr) 0
    = cubic (a j) (b j) (c j) (nth j fvals 0) (nth i qvals 0 - nth j xvals 0).
Proof.
  intros Hrun Hlen Hinc Hs Hj a b c.
  destruct (accepted_spec _ _ _ _ _ _ Hrun Hlen Hs) as (m & Hx & Hf & Hm & Hfr).
  replace (length fvals - 1)%nat with m in * by lia.
  subst a b c. cbv beta.
  split; [|split; [|split]].
  - apply nth_overflow.
    rewrite (bvec_length _ _ _ _ _ _ _ Hx Hf Hm Hfr Hs). lia.
  - rewrite (cvec_nth _ _ _ _ _ _ _ Hx Hf Hm Hfr Hs j Hj). field.
  - rewrite (avec_nth _ _ _ _ _ _ _ Hx Hf Hm Hfr Hs j Hj). reflexivity.
  - intros i Hi Hin.
    rewrite (accepted_hit _ _ _ _ _ _ _ (S j) i Hfr Hx Hinc) by (auto; lia).
    unfold segment. replace (S j - 1)%nat with j by lia. reflexivity.
Qed.


Lemma spline_coefficients_witness :
  let a := fun k => nth k (Locals.avec ex_locals) 0 in
  let b := fun k => nth k (Locals.bvec ex_locals) 0 in
  let c := fun k => nth k (Locals.cvec ex_locals) 0 in
  b (length ex_fvals - 1)%nat = 0 /\
  c 0%nat == slope ex_xvals ex_fvals 0
             - delta ex_xvals 0 / 3 * (2 * b 0%nat + b 1%nat) /\
  a 0%nat == (slope ex_xvals ex_fvals 0 - delta ex_xvals 0 * b 0%nat
              - c 0%nat) / delta ex_xvals 0 ^ 2 /\
  forall i, (i < length ex_qvals)%nat ->
    in_interval ex_xvals 1 (nth i ex_qvals 0) ->
    nth i (Locals.svals ex_locals) 0
    = cubic (a 0%nat) (b 0%nat) (c 0%nat) (nth 0 ex_fvals 0)
        (nth i ex_qvals 0 - nth 0 ex_xvals 0).
Proof.
  apply (spline_coefficients tridiag_solve ex_globals ex_xvals ex_fvals
           ex_qvals ex_locals 0);
    [ vm_compute; reflexivity | reflexivity | reflexivity | reflexivity
    | simpl; lia ].
Defined.


(** C4. For a call that returned on strictly increasing nodes, with an
    exact solver answer: at every interior node [x_j], [1 <= j <= n - 1],
    the cubic of segment [j - 1] and the cubic of segment [j] have the same
    value, the same first derivative and the same second derivative. *)
Theorem spline_continuity
  (spsolve : dia_matrix -> array -> result array) (g : globals)
  (xvals fvals qvals : array) (fr : Locals.t) (j : nat) :
  spline_maker_locals spsolve g xvals fvals qvals = Ok fr ->
  length xvals = length fvals ->
  increasingb xvals = true ->
  exact_solve fr ->
  (1 <= j)%nat -> (j < length fvals - 1)%nat ->
  let a := Locals.avec fr in
  let b := Locals.bvec fr in
  let c := Locals.cvec fr in
  let xj := nth j xvals 0 in
  segment xvals fvals a b c (j - 1) xj == segment xvals fvals a b c j xj /\
  segment' xvals a b c (j - 1) xj == segment' xvals a b c j xj /\
  segment'' xvals a b (j - 1) xj == segment'' xvals a b j xj.
Proof.
  intros Hrun Hlen Hinc Hex Hj1 Hj a b c xj.
  pose proof Hex as [Hs _].
  destruct (accepted_spec _ _ _ _ _ _ Hrun Hlen Hs) as (m & Hx & Hf & Hm & Hfr).
  replace (length fvals - 1)%nat with m in * by lia.
  destruct j as [|k]; [lia|]. replace (S k - 1)%nat with k by lia.
  subst a b c xj.
  pose proof (delta_nonzero xvals k Hinc ltac:(lia)) as Hd.
  pose proof (curvature_equation _ _ _ _ _ _ _ Hx Hf Hm Hfr Hs k Hex Hj) as He.
  unfold segment, segment', segment''.
  change (nth (S k) xvals 0 - nth k xvals 0) with (delta xvals k).
  rewrite !(avec_nth _ _ _ _ _ _ _ Hx Hf Hm Hfr Hs k) by lia.
  rewrite !(cvec_nth _ _ _ _ _ _ _ Hx Hf Hm Hfr Hs k) by lia.
  rewrite !(cvec_nth _ _ _ _ _ _ _ Hx Hf Hm Hfr Hs (S k)) by lia.
  split; [|split].
  - rewrite segment_value_algebra by exact Hd.
    unfold cubic, slope. 
    assert (E : nth k fvals 0 + delta fvals k / delta xvals k * delta xvals k
                == nth (S k) fvals 0).
    { unfold delta at 1. field. exact Hd. }
    rewrite E. ring.
  - rewrite (segment_first_algebra _ (delta xvals (S k)) _
               (slope xvals fvals (S k)) _ _
               (nth (S (S k)) (Locals.bvec fr) 0) Hd He).
    unfold cubic'. ring.
  - rewrite segment_second_algebra by exact Hd.
    unfold cubic''. ring.
Qed.


Lemma spline_continuity_witness :
  let a := Locals.avec ex_locals in
  let b := Locals.bvec ex_locals in
  let c := Locals.cvec ex_locals in
  let xj := nth 1 ex_xvals 0 in
  segment ex_xvals ex_fvals a b c (1 - 1) xj
  == segment ex_xvals ex_fvals a b c 1 xj /\
  segment' ex_xvals a b c (1 - 1) xj == segment' ex_xvals a b c 1 xj /\
  segment'' ex_xvals a b (1 - 1) xj == segment'' ex_xvals a b 1 xj.
Proof.
  apply (spline_continuity tridiag_solve ex_globals ex_xvals ex_fvals
           ex_qvals ex_locals 1);
    [ vm_compute; reflexivity | reflexivity | reflexivity
    | split;
      [ reflexivity
      | intros i Hi; destruct i as [|[|i]];
        [ vm_compute; reflexivity | vm_compute; reflexivity
        | exfalso; vm_compute in Hi; lia ] ]
    | lia | simpl; lia ].
Defined.


(** C5. For a call that returned on strictly increasing nodes: there is
    at least one segment, [avec] and [bvec] hold one coefficient for each of
    the [n] segments, and the second derivative of the cubic of the first
    segment at [x_0] and of the cubic of the last segment at [x_n] are
    zero. *)
Theorem spline_natural_boundary
  (spsolve : dia_matrix -> array -> result array) (g : globals)
  (xvals fvals qvals : array) (fr : Locals.t) :
  spline_maker_locals spsolve g xvals fvals qvals = Ok fr ->
  length xvals = length fvals ->
  increasingb xvals = true ->
  length (tl (Locals.bvec fr)) = length (Locals.rhs fr) ->
  let n := (length fvals - 1)%nat in
  (1 <= n)%nat /\
  length (Locals.avec fr) = n /\ length (Locals.bvec fr) = n /\
  segment'' xvals (Locals.avec fr) (Locals.bvec fr) 0 (nth 0 xvals 0) == 0 /\
  segment'' xvals (Locals.avec fr) (Locals.bvec fr) (n - 1) (nth n xvals 0)
  == 0.
Proof.
  intros Hrun Hlen Hinc Hs n.
  destruct (accepted_spec _ _ _ _ _ _ Hrun Hlen Hs) as (m & Hx & Hf & Hm & Hfr).
  replace n with m by (subst n; lia). clear n.
  split; [exact Hm|].
  split; [exact (avec_length _ _ _ _ _ _ _ Hx Hf Hm Hfr Hs)|].
  split; [exact (bvec_length _ _ _ _ _ _ _ Hx Hf Hm Hfr Hs)|].
  unfold segment''. split.
  - rewrite (bvec_0 _ _ _ _ _ _ _ Hx Hf Hm Hfr Hs). unfold cubic''. ring.
  - destruct m as [|k]; [lia|]. replace (S k - 1)%nat with k by lia.
    pose proof (delta_nonzero xvals k Hinc ltac:(lia)) as Hd.
    change (nth (S k) xvals 0 - nth k xvals 0) with (delta xvals k).
    rewrite (avec_nth _ _ _ _ _ _ _ Hx Hf Hm Hfr Hs k) by lia.
    rewrite (cvec_nth _ _ _ _ _ _ _ Hx Hf Hm Hfr Hs k) by lia.
    rewrite segment_second_algebra by exact Hd.
    rewrite (nth_overflow (Locals.bvec fr)).
    + ring.
    + rewrite (bvec_length _ _ _ _ _ _ _ Hx Hf Hm Hfr Hs). lia.
Qed.

Lemma spline_natural_boundary_witness :
  let n := (length ex_fvals - 1)%nat in
  (1 <= n)%nat /\
  length (Locals.avec ex_locals) = n /\ length (Locals.bvec ex_locals) = n /\
  segment'' ex_xvals (Locals.avec ex_locals) (Locals.bvec ex_locals) 0
    (nth 0 ex_xvals 0) == 0 /\
  segment'' ex_xvals (Locals.avec ex_locals) (Locals.bvec ex_locals) (n - 1)
    (nth n ex_xvals 0) == 0.
Proof.
  apply (spline_natural_boundary tridiag_solve ex_globals ex_xvals ex_fvals
           ex_qvals ex_locals);
    [ vm_compute; reflexivity | reflexivity | reflexivity | reflexivity ].
Defined.


(** ** The evaluation loop *)

(** C10. On a sample set with at least three strictly increasing nodes,
    with [ivals] bound to an array of the size of the queries,
    [spline_maker] returns an array of that size, and its entry is [0] for
    every query that is in none of the intervals of the loop, in particular
    one below [x_0] and one at or above [x_n]. *)
Theorem spline_maker_outside_zero
  (spsolve : dia_matrix -> array -> result array) (g : globals)
  (xvals fvals qvals iv : array) (i : nat) :
  solver_shape spsolve ->
  length xvals = length fvals -> (3 <= length fvals)%nat ->
  increasingb xvals = true ->
  ivals g = Some iv -> length iv = length qvals ->
  (i < length qvals)%nat ->
  (forall jj, (1 <= jj <= length xvals - 1)%nat ->
     ~ in_interval xvals jj (nth i qvals 0))
  \/ nth i qvals 0 < nth 0 xvals 0
  \/ nth (length xvals - 1) xvals 0 <= nth i qvals 0 ->
  exists svals,
    spline_maker spsolve g xvals fvals qvals = Ok svals /\
    length svals = length qvals /\
    nth i svals 0 = 0.
Proof.
  intros Hsolve Hlen Hn Hinc Hg Hiv Hi Hout.
  destruct (valid_call_spec spsolve g xvals fvals qvals iv Hsolve Hlen Hn Hg Hiv)
    as (fr & m & Hrun & Hs & Hx & Hf & Hm & Hfr).
  exists (Locals.svals fr). unfold spline_maker. rewrite Hrun. cbn [bind].
  split; [reflexivity|].
  split;
    [destruct (accepted_svals _ _ _ _ _ _ _ Hfr) as (iv' & Hg' & Hl); congruence|].
  apply (accepted_miss _ _ _ _ _ _ _ i Hfr); auto; try lia.
  intros jj Hjj.
  destruct Hout as [Hout|Hout].
  - apply Hout. lia.
  - apply outside_no_interval; solve [auto | lia | tauto].
Qed.

Lemma spline_maker_outside_zero_witness :
  exists svals,
    spline_maker tridiag_solve ex_globals ex_xvals ex_fvals ex_qvals
    = Ok svals /\
    length svals = length ex_qvals /\
    nth 1 svals 0 = 0.
Proof.
  apply (spline_maker_outside_zero tridiag_solve ex_globals ex_xvals ex_fvals
           ex_qvals ex_qvals 1);
    [ exact tridiag_solve_shape | reflexivity | simpl; lia | reflexivity
    | reflexivity | reflexivity | simpl; lia
    | right; right; vm_compute; discriminate ].
Defined.


(** C1 (the code departs from it at the last node).  With nodes [0, 1, 2],
    values [1, 1, 1] and the single query [2 = x_n], the query is in the
    closed last interval and the cubic of the last segment is [1] there,
    but no pass of the loop selects it: [spline_maker] returns [0]. *)
Theorem spline_maker_right_endpoint :
  let g := {| ivals := Some [2]; ipoly := None |} in
  let xvals := [0; 1; 2] in
  let fvals := [1; 1; 1] in
  spline_maker tridiag_solve g xvals fvals [2] = Ok [0] /\
  (nth 1 xvals 0 <= 2 /\ 2 <= nth 2 xvals 0) /\
  ~ in_interval xvals 2 2 /\
  exists fr,
    spline_maker_locals tridiag_solve g xvals fvals [2] = Ok fr /\
    segment xvals fvals (Locals.avec fr) (Locals.bvec fr) (Locals.cvec fr) 1 2
    == 1.
Proof.
  cbv zeta. split; [vm_compute; reflexivity|].
  split; [split; vm_compute; discriminate|].
  split.
  - intros [_ H]. vm_compute in H. discriminate.
  - eexists. split; [vm_compute; reflexivity|]. vm_compute. reflexivity.
Qed.

(** ** The Lagrange cells *)

Lemma lfun_length (xvals : array) (jj : nat) (x : array) :
  length (lfun xvals jj x) = length x.
Proof. unfold lfun, ones. apply repeat_length. Qed.

(** C8 (the code departs from it).  [lfun] returns an array of ones of the
    size of the query set whatever the nodes and the index are; with nodes
    [0, 1], index [0] and the query [1] it returns [1], where the basis
    polynomial [L_0(1) = (1 - 1)/(0 - 1)] is [0]. *)
Theorem lfun_is_constant_one :
  (forall xvals jj x, lfun xvals jj x = repeat 1 (length x)) /\
  lfun [0; 1] 0 [1] = [1] /\
  lagrange_basis [0; 1] 0 1 == 0 /\
  ~ 1 == 0.
Proof.
  split; [reflexivity|]. split; [reflexivity|].
  split; [vm_compute; reflexivity|]. vm_compute. discriminate.
Qed.

(** C6 (the code departs from it).  [lagran_interp] returns the
    module-level name [ipoly], which no cell of the notebook binds: on the
    nodes [-9, -4, -1, 7] with values [5, 2, -2, 9] it raises [NameError] at
    the queries [-4] and [7], where the interpolating polynomial takes the
    values [2] and [9].  The spline evaluated on its own nodes [0, 1, 2]
    with values [1, 1, 1] returns [1, 1, 0]: the last node is lost. *)
Theorem node_reproduction_fails :
  let g := {| ivals := None; ipoly := None |} in
  let xvals := [-9; -4; -1; 7] in
  let fvals := [5; 2; -2; 9] in
  (forall xs fs x, lagran_interp g xs fs x = Raise NameError) /\
  lagran_interp g xvals fvals [-4] = Raise NameError /\
  lagran_interp g xvals fvals [7] = Raise NameError /\
  lagrange_poly xvals fvals (-4) == 2 /\
  lagrange_poly xvals fvals 7 == 9 /\
  result_eqb
    (spline_maker tridiag_solve {| ivals := Some [0; 1; 2]; ipoly := None |}
       [0; 1; 2] [1; 1; 1] [0; 1; 2])
    (Ok [1; 1; 0]) = true.
Proof.
  cbv zeta. split; [reflexivity|]. split; [reflexivity|].
  split; [reflexivity|]. split; [vm_compute; reflexivity|].
  split; vm_compute; reflexivity.
Qed.

(** C7 (the code departs from it).  [spline_maker] sizes its result by the
    module-level array [ivals], not by its argument [qvals]: the same call
    returns a value, raises [NameError] or raises [IndexError] as [ivals]
    is bound to an array of the size of the queries, not bound, or bound to
    an array of another size.  [lagran_interp] returns whatever the
    module-level [ipoly] is, so two calls with the same arguments give
    results of different lengths. *)
Theorem interpolation_reads_globals :
  let xvals := [0; 1; 2] in
  let fvals := [1; 1; 1] in
  let qvals := [1 # 2] in
  result_eqb
    (spline_maker tridiag_solve {| ivals := Some [0]; ipoly := None |}
       xvals fvals qvals) (Ok [1]) = true /\
  spline_maker tridiag_solve {| ivals := None; ipoly := None |}
    xvals fvals qvals = Raise NameError /\
  spline_maker tridiag_solve {| ivals := Some [0; 0]; ipoly := None |}
    xvals fvals qvals = Raise IndexError /\
  lagran_interp {| ivals := None; ipoly := Some [1] |} xvals fvals qvals
  = Ok [1] /\
  lagran_interp {| ivals := None; ipoly := Some [2; 3] |} xvals fvals qvals
  = Ok [2; 3].
Proof.
  cbv zeta. split; [vm_compute; reflexivity|].
  split; [vm_compute; reflexivity|].
  split; [vm_compute; reflexivity|].
  split; reflexivity.
Qed.

(** ** Chebyshev nodes *)

(** C9.  For a node count [n + 1], [xcheb] has [n + 1] entries; for every
    [j = 0..n] its entry [j] is [cos((2j+1) pi / (2n+2))] and lies strictly
    inside the interval [[-1, 1]]; and the entries are strictly decreasing:
    entry [k] is below entry [j] whenever [j < k <= n]. *)
Theorem xcheb_nodes (n : nat) :
  length (xcheb n) = S n /\
  (forall j, (j <= n)%nat ->
     nth j (xcheb n) 0%R = cos ((2 * INR j + 1) * PI / (2 * INR n + 2))%R /\
     (-1 < nth j (xcheb n) 0 < 1)%R) /\
  (forall j k, (j < k)%nat -> (k <= n)%nat ->
     (nth k (xcheb n) 0 < nth j (xcheb n) 0)%R).
Proof.
  pose proof PI_RGT_0 as Hpi.
  split; [unfold xcheb; now rewrite length_map, length_seq|].
  split.
  - intros j Hj. split; [now apply xcheb_nth|].
    rewrite xcheb_nth by exact Hj.
    destruct (xcheb_angle_bounds n j Hj) as [Hj0 Hj1].
    set (tj := ((2 * INR j + 1) * PI / (2 * INR n + 2))%R) in *.
    split.
    + rewrite <- cos_PI. apply cos_decreasing_1; lra.
    + rewrite <- cos_0. apply cos_decreasing_1; lra.
  - intros j k Hjk Hk.
    rewrite !xcheb_nth by lia.
    destruct (xcheb_angle_bounds n j) as [Hj0 Hj1]; [lia|].
    destruct (xcheb_angle_bounds n k Hk) as [Hk0 Hk1].
    assert (Hlt : ((2 * INR j + 1) * PI / (2 * INR n + 2)
                   < (2 * INR k + 1) * PI / (2 * INR n + 2))%R).
    { assert (Hjk' : (INR j < INR k)%R) by now apply lt_INR.
      assert (Hn : (0 <= INR n)%R) by apply pos_INR.
      unfold Rdiv. apply Rmult_lt_compat_r.
      - apply Rinv_0_lt_compat. lra.
      - apply Rmult_lt_compat_r; lra. }
    set (tj := ((2 * INR j + 1) * PI / (2 * INR n + 2))%R) in *.
    set (tk := ((2 * INR k + 1) * PI / (2 * INR n + 2))%R) in *.
    apply cos_decreasing_1; lra.
Qed.

(** The three nodes for [n = 2]: the last one has the formula's value, and
    it is below the first one; the single node for [n = 0]. *)
Lemma xcheb_nodes_witness :
  (length (xcheb 2) = 3%nat /\
   nth 2 (xcheb 2) 0%R = cos ((2 * INR 2 + 1) * PI / (2 * INR 2 + 2))%R /\
   (nth 2 (xcheb 2) 0 < nth 0 (xcheb 2) 0)%R) /\
  (length (xcheb 0) = 1%nat /\
   nth 0 (xcheb 0) 0%R = cos ((2 * INR 0 + 1) * PI / (2 * INR 0 + 2))%R).
Proof.
  split.
  - destruct (xcheb_nodes 2) as (Hl & Hf & Hd).
    split; [exact Hl|]. split.
    + apply (Hf 2%nat). lia.
    + apply (Hd 0%nat 2%nat); lia.
  - destruct (xcheb_nodes 0) as (Hl & Hf & _).
    split; [exact Hl|]. apply (Hf 0%nat). lia.
Defined.

(** * Further properties of the cells *)

(** ** A call that returned, whatever the solver gave *)

Lemma spdiags_inv (data : list array) (diags : list Z) (m n : Z)
  (A : dia_matrix) :
  spdiags data diags m n = Ok A -> (0 <= m)%Z /\ (0 <= n)%Z.
Proof.
  unfold spdiags. destruct (Z.ltb_spec m 0); [discriminate|].
  destruct (Z.ltb_spec n 0); [discriminate|]. intros _. lia.
Qed.

(** The loop of a call that returned: it had at least one pass to run, it
    started from zeros of the size of the module-level [ivals], and it read
    the coefficients of the locals. *)
Lemma accepted_loop
  (spsolve : dia_matrix -> array -> result array) (g : globals)
  (xvals fvals qvals : array) (fr : Locals.t) :
  spline_maker_locals spsolve g xvals fvals qvals = Ok fr ->
  (2 <= length fvals)%nat /\
  exists iv, ivals g = Some iv /\
    for_each (seq 1 (length fvals - 1))
      (spline_step xvals fvals qvals (Locals.avec fr) (Locals.bvec fr)
         (Locals.cvec fr))
      (zeros (length iv)) = Ok (Locals.svals fr).
Proof.
  intros H. unfold spline_maker_locals in H.
  apply bind_inv in H as (df & _ & H).
  apply bind_inv in H as (dx & _ & H).
  apply bind_inv in H as (dfdx & _ & H).
  apply bind_inv in H as (iv & Hiv & H).
  apply bind_inv in H as (rhs & _ & H).
  apply bind_inv in H as (s & _ & H).
  apply bind_inv in H as (data & _ & H).
  apply bind_inv in H as (Bmat & HB & H).
  apply spdiags_inv in HB as [HB _].
  apply bind_inv in H as (sol & _ & H).
  apply bind_inv in H as (t1 & _ & H).
  apply bind_inv in H as (u1 & _ & H).
  apply bind_inv in H as (t2 & _ & H).
  apply bind_inv in H as (cvec & _ & H).
  apply bind_inv in H as (p & _ & H).
  apply bind_inv in H as (u2 & _ & H).
  apply bind_inv in H as (u3 & _ & H).
  apply bind_inv in H as (avec & _ & H).
  apply bind_inv in H as (svals & Hloop & H).
  injection H as <-. cbn [Locals.avec Locals.bvec Locals.cvec Locals.svals].
  split; [lia|].
  unfold lookup in Hiv. destruct (ivals g) as [iv'|]; [|discriminate].
  injection Hiv as ->. exists iv. split; [reflexivity|].
  replace (length fvals - 1)%nat
    with (Z.to_nat (Z.of_nat (length fvals) - 1)) by lia.
  exact Hloop.
Qed.

(** The sizes of a call that returned. *)
Lemma accepted_sizes
  (spsolve : dia_matrix -> array -> result array) (g : globals)
  (xvals fvals qvals : array) (fr : Locals.t) :
  spline_maker_locals spsolve g xvals fvals qvals = Ok fr ->
  exists iv, ivals g = Some iv /\
    length (Locals.svals fr) = length iv /\
    (length qvals = length iv \/ qvals = []).
Proof.
  intros Hrun.
  destruct (accepted_loop _ _ _ _ _ _ Hrun) as (Hn & iv & Hg & Hloop).
  exists iv. split; [exact Hg|].
  pose proof (loop_length _ _ _ _ _ _ _ _ _ Hloop) as Hl.
  unfold zeros in Hl. rewrite repeat_length in Hl. split; [exact Hl|].
  destruct (length fvals - 1)%nat as [|k] eqn:E; [lia|].
  cbn [seq for_each] in Hloop.
  apply bind_inv in Hloop as (s1 & H1 & _).
  apply spline_step_inv in H1 as (_ & _ & _ & _ & _ & Hq).
  unfold zeros in Hq. now rewrite repeat_length in Hq.
Qed.

Lemma loop_scalar (xvals fvals qvals avec bvec cvec : array)
  (js : list nat) (s s' : array) (i : nat) :
  for_each js (spline_step xvals fvals qvals avec bvec cvec) s = Ok s' ->
  (i < length qvals)%nat ->
  nth i s' 0
  = scalar_eval xvals fvals avec bvec cvec js (nth i qvals 0) (nth i s 0).
Proof.
  revert s. induction js as [|j js IH]; cbn [for_each]; intros s H Hi.
  - injection H as <-. reflexivity.
  - apply bind_inv in H as (s1 & H1 & H).
    apply spline_step_spec in H1 as [Hl Hn].
    rewrite (IH s1 H) by exact Hi. rewrite (Hn i Hi).
    unfold scalar_eval. cbn [fold_left]. reflexivity.
Qed.

Ltac same_result :=
  match goal with
  | H1 : ?t = Ok ?a, H2 : ?t = Ok ?b |- _ =>
      assert (a = b) by congruence; subst b; clear H2
  end.

(** The coefficients are computed from the sample set alone: two calls that
    returned on the same sample set have the same coefficients, whatever
    their queries and the module state. *)
Lemma coefficients_from_sample
  (spsolve : dia_matrix -> array -> result array) (g1 g2 : globals)
  (xvals fvals q1 q2 : array) (fr1 fr2 : Locals.t) :
  spline_maker_locals spsolve g1 xvals fvals q1 = Ok fr1 ->
  spline_maker_locals spsolve g2 xvals fvals q2 = Ok fr2 ->
  Locals.avec fr1 = Locals.avec fr2 /\
  Locals.bvec fr1 = Locals.bvec fr2 /\
  Locals.cvec fr1 = Locals.cvec fr2.
Proof.
  intros H1 H2. unfold spline_maker_locals in H1, H2.
  apply bind_inv in H1 as (df & Hdf & H1).
  apply bind_inv in H2 as (df' & Hdf' & H2). same_result.
  apply bind_inv in H1 as (dx & Hdx & H1).
  apply bind_inv in H2 as (dx' & Hdx' & H2). same_result.
  apply bind_inv in H1 as (dfdx & Hdfdx & H1).
  apply bind_inv in H2 as (dfdx' & Hdfdx' & H2). same_result.
  apply bind_inv in H1 as (iv & _ & H1).
  apply bind_inv in H2 as (iv' & _ & H2).
  apply bind_inv in H1 as (rhs & Hrhs & H1).
  apply bind_inv in H2 as (rhs' & Hrhs' & H2). same_result.
  apply bind_inv in H1 as (s & Hs & H1).
  apply bind_inv in H2 as (s' & Hs' & H2). same_result.
  apply bind_inv in H1 as (data & Hdata & H1).
  apply bind_inv in H2 as (data' & Hdata' & H2). same_result.
  apply bind_inv in H1 as (Bmat & HB & H1).
  apply bind_inv in H2 as (Bmat' & HB' & H2). same_result.
  apply bind_inv in H1 as (sol & Hsol & H1).
  apply bind_inv in H2 as (sol' & Hsol' & H2). same_result.
  apply bind_inv in H1 as (t1 & Ht1 & H1).
  apply bind_inv in H2 as (t1' & Ht1' & H2). same_result.
  apply bind_inv in H1 as (u1 & Hu1 & H1).
  apply bind_inv in H2 as (u1' & Hu1' & H2). same_result.
  apply bind_inv in H1 as (t2 & Ht2 & H1).
  apply bind_inv in H2 as (t2' & Ht2' & H2). same_result.
  apply bind_inv in H1 as (cvec & Hc & H1).
  apply bind_inv in H2 as (cvec' & Hc' & H2). same_result.
  apply bind_inv in H1 as (p & Hp & H1).
  apply bind_inv in H2 as (p' & Hp' & H2). same_result.
  apply bind_inv in H1 as (u2 & Hu2 & H1).
  apply bind_inv in H2 as (u2' & Hu2' & H2). same_result.
  apply bind_inv in H1 as (u3 & Hu3 & H1).
  apply bind_inv in H2 as (u3' & Hu3' & H2). same_result.
  apply bind_inv in H1 as (avec & Ha & H1).
  apply bind_inv in H2 as (avec' & Ha' & H2). same_result.
  apply bind_inv in H1 as (sv & _ & H1).
  apply bind_inv in H2 as (sv' & _ & H2).
  injection H1 as <-. injection H2 as <-. cbn. auto.
Qed.

(** ** Calls that raise *)

Lemma slice_to_pred_length (a : array) (k : nat) :
  length a = k -> length (slice_to (Z.of_nat k - 1) a) = (k - 1)%nat.
Proof.
  intros H. unfold slice_to.
  destruct (Z.leb_spec 0 (Z.of_nat k - 1)); rewrite length_firstn; lia.
Qed.

Lemma broadcast2_mismatch (op : Q -> Q -> Q) (u v : array) :
  length u <> length v -> (2 <= length u)%nat -> (2 <= length v)%nat ->
  broadcast2 op u v = Raise ValueError.
Proof.
  intros Hne Hu Hv. unfold broadcast2.
  destruct (Nat.eqb_spec (length u) (length v)); [contradiction|].
  destruct u as [|a [|a' u]]; cbn [length] in Hu; try lia.
  destruct v as [|b [|b' v]]; cbn [length] in Hv; try lia.
  reflexivity.
Qed.

(** A pass whose mask is not empty and has not the size of the result
    raises. *)
Lemma spline_step_mismatch (xvals fvals qvals avec bvec cvec : array)
  (jj : nat) (s : array) :
  (jj < length xvals)%nat -> (jj - 1 < length avec)%nat ->
  (jj - 1 < length bvec)%nat -> (jj - 1 < length cvec)%nat ->
  (jj - 1 < length fvals)%nat ->
  qvals <> [] -> length qvals <> length s ->
  spline_step xvals fvals qvals avec bvec cvec jj s = Raise IndexError.
Proof.
  intros Hx Ha Hb Hc Hf Hne Hq. unfold spline_step.
  rewrite (index_nth xvals jj Hx).
  rewrite (index_nth xvals (jj - 1)) by lia.
  rewrite (index_nth avec _ Ha), (index_nth bvec _ Hb), (index_nth cvec _ Hc),
    (index_nth fvals _ Hf).
  cbn [bind]. unfold mask_assign.
  pose proof (interval_mask_length qvals (nth (jj - 1) xvals 0)
                (nth jj xvals 0)) as Hl.
  destruct (mask_and _ _) as [|b inds] eqn:E.
  - destruct qvals; [contradiction|discriminate Hl].
  - rewrite Hl.
    destruct (Nat.eqb_spec (length qvals) (length s)); [contradiction|].
    reflexivity.
Qed.

(** Up to its loop, a call on [m + 1 >= 2] nodes and values runs when
    [ivals] is bound, whatever its size. *)
Lemma spline_maker_locals_to_loop
  (spsolve : dia_matrix -> array -> result array) (g : globals)
  (xvals fvals qvals : array) (m : nat) (iv : array) :
  length xvals = S m -> length fvals = S m -> (1 <= m)%nat ->
  ivals g = Some iv -> solver_shape spsolve ->
  exists avec bvec cvec (k : array -> result Locals.t),
    length avec = m /\ length bvec = m /\ length cvec = m /\
    (forall sv, exists fr, k sv = Ok fr /\ Locals.svals fr = sv) /\
    spline_maker_locals spsolve g xvals fvals qvals
    = bind (for_each (seq 1 m)
              (spline_step xvals fvals qvals avec bvec cvec)
              (zeros (length iv))) k.
Proof.
  intros Hx Hf Hm Hg Hsolve.
  unfold spline_maker_locals.
  replace (Z.of_nat (length fvals) - 1)%Z with (Z.of_nat m) by lia.
  replace (Z.of_nat m - 1)%Z with (Z.of_nat (m - 1)) by lia.
  rewrite Nat2Z.id. unfold slice_from1.
  rewrite !slice_to_nat.
  rewrite (broadcast2_same Qminus (tl fvals) (firstn m fvals)) by lengths.
  cbn [bind]. set (df := map2 Qminus (tl fvals) (firstn m fvals)).
  assert (Ldf : length df = m) by (subst df; lengths).
  rewrite (broadcast2_same Qminus (tl xvals) (firstn m xvals)) by lengths.
  cbn [bind]. set (dx := map2 Qminus (tl xvals) (firstn m xvals)).
  assert (Ldx : length dx = m) by (subst dx; lengths).
  rewrite (broadcast2_same Qdiv df dx) by lengths.
  cbn [bind]. set (dfdx := map2 Qdiv df dx).
  assert (Ldfdx : length dfdx = m) by (subst dfdx; lengths).
  rewrite Hg. cbn [lookup bind].
  rewrite !slice_to_nat.
  rewrite (broadcast2_same Qminus (tl dfdx) (firstn (m - 1) dfdx)) by lengths.
  cbn [bind]. set (rhs := map2 Qminus (tl dfdx) (firstn (m - 1) dfdx)).
  assert (Lrhs : length rhs = (m - 1)%nat) by (subst rhs; lengths).
  rewrite (broadcast2_same Qplus (tl dx) (firstn (m - 1) dx)) by lengths.
  cbn [bind]. set (s := map2 Qplus (tl dx) (firstn (m - 1) dx)).
  assert (Ls : length s = (m - 1)%nat) by (subst s; lengths).
  unfold array2. cbn [forallb].
  rewrite !(proj2 (Nat.eqb_eq _ _)) by lengths.
  cbn [andb bind]. unfold spdiags.
  destruct (Z.ltb_spec (Z.of_nat (m - 1)) 0); [lia|].
  cbn [orb negb length Nat.eqb bind].
  set (B := {| dia_data := _ |}).
  destruct (Hsolve B rhs) as (sol & -> & Lsol).
  { subst B. cbn [dia_shape]. now rewrite Lrhs. }
  cbn [bind tl].
  rewrite (broadcast2_same Qmult _ (0 :: sol)) by lengths.
  cbn [bind]. set (t1 := map2 Qmult _ (0 :: sol)).
  assert (Lt1 : length t1 = m) by (subst t1; lengths).
  rewrite (broadcast2_same Qminus dfdx t1) by lengths.
  cbn [bind]. set (u1 := map2 Qminus dfdx t1).
  assert (Lu1 : length u1 = m) by (subst u1; lengths).
  rewrite (broadcast2_same Qmult _ (sol ++ [0])) by lengths.
  cbn [bind]. set (t2 := map2 Qmult _ (sol ++ [0])).
  assert (Lt2 : length t2 = m) by (subst t2; lengths).
  rewrite (broadcast2_same Qminus u1 t2) by lengths.
  cbn [bind]. set (cvec := map2 Qminus u1 t2).
  assert (Lc : length cvec = m) by (subst cvec; lengths).
  rewrite (broadcast2_same Qmult dx (0 :: sol)) by lengths.
  cbn [bind]. set (p := map2 Qmult dx (0 :: sol)).
  assert (Lp : length p = m) by (subst p; lengths).
  rewrite (broadcast2_same Qminus dfdx p) by lengths.
  cbn [bind]. set (u2 := map2 Qminus dfdx p).
  assert (Lu2 : length u2 = m) by (subst u2; lengths).
  rewrite (broadcast2_same Qminus u2 cvec) by lengths.
  cbn [bind]. set (u3 := map2 Qminus u2 cvec).
  assert (Lu3 : length u3 = m) by (subst u3; lengths).
  rewrite (broadcast2_same Qdiv u3 _) by lengths.
  cbn [bind]. set (avec := map2 Qdiv u3 _).
  assert (La : length avec = m) by (subst avec; lengths).
  exists avec, (0 :: sol), cvec. eexists.
  split; [exact La|]. split; [cbn [length]; lia|]. split; [exact Lc|].
  split; [|reflexivity].
  intros sv. eexists. split; reflexivity.
Qed.

(** ** Straight lines *)

Lemma argmax_upto (f : nat -> Q) (N : nat) :
  exists k, (k <= N)%nat /\ forall i, (i <= N)%nat -> f i <= f k.
Proof.
  induction N as [|N (k & Hk & Hmax)].
  - exists O. split; [lia|]. intros i Hi. replace i with O by lia.
    apply Qle_refl.
  - destruct (Qlt_le_dec (f k) (f (S N))) as [Hlt|Hge].
    + exists (S N). split; [lia|]. intros i Hi.
      destruct (Nat.eq_dec i (S N)) as [->|Hne]; [apply Qle_refl|].
      apply Qle_trans with (f k); [apply Hmax; lia|].
      now apply Qlt_le_weak.
    + exists k. split; [lia|]. intros i Hi.
      destruct (Nat.eq_dec i (S N)) as [->|Hne]; [exact Hge|].
      apply Hmax. lia.
Qed.

(** A homogeneous system with the rows of the spline system, and zero at
    both ends, has only the zero solution. *)
Lemma tridiag_zero (b p : nat -> Q) (m : nat) :
  b O == 0 -> b m == 0 ->
  (forall i, (i < m)%nat -> 0 < p i) ->
  (forall i, (S i < m)%nat ->
     p i * b i + 2 * (p i + p (S i)) * b (S i) + p (S i) * b (S (S i)) == 0) ->
  forall k, (k <= m)%nat -> b k == 0.
Proof.
  intros Hb0 Hbm Hp Heq.
  destruct (argmax_upto (fun i => Qabs (b i)) m) as (k & Hk & Hmax).
  assert (Hzero : Qabs (b k) <= 0).
  { destruct (Nat.eq_dec k 0) as [->|Hk0]; [rewrite Hb0; apply Qle_refl|].
    destruct (Nat.eq_dec k m) as [->|Hkm]; [rewrite Hbm; apply Qle_refl|].
    destruct k as [|i]; [lia|].
    pose proof (Heq i ltac:(lia)) as E.
    pose proof (Hp i ltac:(lia)) as Hp0.
    pose proof (Hp (S i) ltac:(lia)) as Hp1.
    pose proof (Hmax i ltac:(lia)) as H0. cbv beta in H0.
    pose proof (Hmax (S (S i)) ltac:(lia)) as H2. cbv beta in H2.
    apply Qabs_Qle_condition in H0 as [H0l H0u].
    apply Qabs_Qle_condition in H2 as [H2l H2u].
    pose proof (Qabs_nonneg (b (S i))) as HA.
    destruct (Qlt_le_dec (b (S i)) 0) as [Hneg|Hpos].
    - assert (EA : Qabs (b (S i)) == - b (S i))
        by (apply Qabs_neg; now apply Qlt_le_weak).
      rewrite EA in *. nra.
    - assert (EA : Qabs (b (S i)) == b (S i)) by now apply Qabs_pos.
      rewrite EA in *. nra. }
  intros j Hj.
  pose proof (Hmax j Hj) as Hle. cbv beta in Hle.
  assert (Hj0 : Qabs (b j) <= 0) by (apply Qle_trans with (Qabs (b k)); auto).
  apply Qabs_Qle_condition in Hj0 as [Hl Hu].
  apply Qle_antisym; [exact Hu|]. exact Hl.
Qed.

Lemma slope_of_line (xs fs : array) (alpha beta : Q) (j : nat) :
  increasingb xs = true -> (S j < length xs)%nat ->
  (forall k, (k < length xs)%nat -> nth k fs 0 == alpha * nth k xs 0 + beta) ->
  slope xs fs j == alpha.
Proof.
  intros Hinc Hj Hline.
  pose proof (delta_nonzero xs j Hinc Hj) as Hd.
  unfold slope. unfold delta at 1.
  rewrite (Hline j) by lia. rewrite (Hline (S j)) by lia.
  unfold delta in *. field. exact Hd.
Qed.

(** ** Evenly spaced samples *)

Lemma linspace_length (a b : Q) (num : nat) :
  length (linspace a b num) = num.
Proof.
  destruct num as [|[|k]]; try reflexivity.
  unfold linspace. rewrite length_app, length_map, length_seq.
  cbn [length]. lia.
Qed.

(** Sample [i] of [num >= 2] samples, the last one included. *)
Lemma linspace_nth (a b : Q) (k i : nat) :
  (i <= S k)%nat ->
  nth i (linspace a b (S (S k))) 0
  == a + inject_Z (Z.of_nat i) * ((b - a) / inject_Z (Z.of_nat (S k))).
Proof.
  intros Hi. unfold linspace.
  assert (Hk : ~ inject_Z (Z.of_nat (S k)) == 0).
  { intros E. assert (H : (Z.of_nat (S k) = 0)%Z).
    { apply (proj1 (inject_Z_injective _ _)). exact E. }
    lia. }
  destruct (Nat.eq_dec i (S k)) as [->|Hne].
  - rewrite app_nth2 by (rewrite length_map, length_seq; lia).
    rewrite length_map, length_seq, Nat.sub_diag. cbn [nth].
    field. exact Hk.
  - rewrite app_nth1 by (rewrite length_map, length_seq; lia).
    rewrite (nth_indep _ 0
               ((fun i => inject_Z (Z.of_nat i)
                          * ((b - a) / inject_Z (Z.of_nat (S k))) + a) O))
      by (rewrite length_map, length_seq; lia).
    rewrite (map_nth (fun i => inject_Z (Z.of_nat i)
                               * ((b - a) / inject_Z (Z.of_nat (S k))) + a)).
    rewrite seq_nth by lia. cbn [Nat.add]. ring.
Qed.

Lemma inject_nat_le (i j : nat) :
  (i <= j)%nat -> inject_Z (Z.of_nat i) <= inject_Z (Z.of_nat j).
Proof. intros H. rewrite <- Zle_Qle. lia. Qed.

Lemma inject_nat_lt (i j : nat) :
  (i < j)%nat -> inject_Z (Z.of_nat i) < inject_Z (Z.of_nat j).
Proof. intros H. rewrite <- Zlt_Qlt. lia. Qed.

Lemma step_pos (a b : Q) (k : nat) :
  a < b -> 0 < (b - a) / inject_Z (Z.of_nat (S k)).
Proof.
  intros H. apply Qlt_shift_div_l.
  - apply (inject_nat_lt 0 (S k)). lia.
  - lra.
Qed.

(** The samples lie between the two ends. *)
Lemma linspace_bounds (a b : Q) (num i : nat) :
  a <= b -> (i < num)%nat ->
  a <= nth i (linspace a b num) 0 /\ nth i (linspace a b num) 0 <= b.
Proof.
  intros Hab Hi. destruct num as [|[|k]]; [lia| |].
  - replace i with O by lia. cbn. split; [apply Qle_refl|exact Hab].
  - rewrite linspace_nth by lia.
    pose proof (inject_nat_le 0 i ltac:(lia)) as H0.
    pose proof (inject_nat_le i (S k) ltac:(lia)) as H1.
    pose proof (inject_nat_lt 0 (S k) ltac:(lia)) as Hk.
    change (inject_Z (Z.of_nat 0)) with 0 in *.
    set (n := inject_Z (Z.of_nat (S k))) in *.
    set (x := inject_Z (Z.of_nat i)) in *.
    assert (E : a + x * ((b - a) / n) == a + (x / n) * (b - a))
      by (field; lra).
    rewrite E.
    assert (Hq0 : 0 <= x / n) by (apply Qle_shift_div_l; lra).
    assert (Hq1 : x / n <= 1) by (apply Qle_shift_div_r; lra).
    set (t := x / n) in *. split; nra.
Qed.

Lemma increasingb_of_adjacent (xs : array) :
  (forall i, (S i < length xs)%nat -> nth i xs 0 < nth (S i) xs 0) ->
  increasingb xs = true.
Proof.
  induction xs as [|x xs IH]; intros H; [reflexivity|].
  destruct xs as [|y xs]; [reflexivity|].
  cbn [increasingb]. apply andb_true_iff. split.
  - apply Qlt_bool_iff. apply (H O). cbn [length]. lia.
  - apply IH. intros i Hi. apply (H (S i)). cbn [length] in *. lia.
Qed.

(** Samples between two different ends are strictly increasing. *)
Lemma linspace_increasing (a b : Q) (num : nat) :
  a < b -> increasingb (linspace a b num) = true.
Proof.
  intros Hab. apply increasingb_of_adjacent. intros i Hi.
  rewrite linspace_length in Hi.
  destruct num as [|[|k]]; try lia.
  rewrite !linspace_nth by lia.
  pose proof (step_pos a b k Hab) as Hs.
  pose proof (inject_nat_lt i (S i) ltac:(lia)) as Hlt.
  set (s := (b - a) / inject_Z (Z.of_nat (S k))) in *.
  nra.
Qed.

(** ** Statements about [spline_maker] *)

(** X1. On a sample set with at least three strictly increasing nodes, with
    [ivals] bound to an array of the size of the queries, a query [q] with
    [x_0 <= q < x_n] lies in the half-open interval of one pass and gets the
    cubic of that segment at the offset from its left node. *)
Theorem spline_maker_between_nodes
  (spsolve : dia_matrix -> array -> result array) (g : globals)
  (xvals fvals qvals iv : array) (i : nat) :
  solver_shape spsolve ->
  length xvals = length fvals -> (3 <= length fvals)%nat ->
  increasingb xvals = true ->
  ivals g = Some iv -> length iv = length qvals ->
  (i < length qvals)%nat ->
  nth 0 xvals 0 <= nth i qvals 0 ->
  nth i qvals 0 < nth (length xvals - 1) xvals 0 ->
  exists fr jj,
    spline_maker_locals spsolve g xvals fvals qvals = Ok fr /\
    spline_maker spsolve g xvals fvals qvals = Ok (Locals.svals fr) /\
    (1 <= jj <= length xvals - 1)%nat /\
    in_interval xvals jj (nth i qvals 0) /\
    nth i (Locals.svals fr) 0
    = cubic (nth (jj - 1) (Locals.avec fr) 0) (nth (jj - 1) (Locals.bvec fr) 0)
        (nth (jj - 1) (Locals.cvec fr) 0) (nth (jj - 1) fvals 0)
        (nth i qvals 0 - nth (jj - 1) xvals 0).
Proof.
  intros Hsolve Hlen Hn Hinc Hg Hiv Hi Hl Hr.
  destruct (valid_call_spec spsolve g xvals fvals qvals iv Hsolve Hlen Hn Hg Hiv)
    as (fr & m & Hrun & Hs & Hx & Hf & Hm & Hfr).
  destruct (locate_interval xvals (nth i qvals 0) (length xvals - 1))
    as (jj & Hjj & Hin); auto; try lia.
  exists fr, jj. split; [exact Hrun|].
  split; [unfold spline_maker; now rewrite Hrun|].
  split; [exact Hjj|]. split; [exact Hin|].
  rewrite (accepted_hit _ _ _ _ _ m _ jj i Hfr Hx Hinc) by (auto; lia).
  reflexivity.
Qed.

Lemma spline_maker_between_nodes_witness :
  exists fr jj,
    spline_maker_locals tridiag_solve ex_globals ex_xvals ex_fvals ex_qvals
    = Ok fr /\
    spline_maker tridiag_solve ex_globals ex_xvals ex_fvals ex_qvals
    = Ok (Locals.svals fr) /\
    (1 <= jj <= length ex_xvals - 1)%nat /\
    in_interval ex_xvals jj (nth 0 ex_qvals 0) /\
    nth 0 (Locals.svals fr) 0
    = cubic (nth (jj - 1) (Locals.avec fr) 0) (nth (jj - 1) (Locals.bvec fr) 0)
        (nth (jj - 1) (Locals.cvec fr) 0) (nth (jj - 1) ex_fvals 0)
        (nth 0 ex_qvals 0 - nth (jj - 1) ex_xvals 0).
Proof.
  apply (spline_maker_between_nodes tridiag_solve ex_globals ex_xvals ex_fvals
           ex_qvals ex_qvals 0);
    [ exact tridiag_solve_shape | reflexivity | simpl; lia | reflexivity
    | reflexivity | reflexivity | simpl; lia
    | vm_compute; discriminate | vm_compute; reflexivity ].
Defined.

(** X2. On such a sample set, a query at a node other than the last one
    gets the value of the sample set at that node. *)
Theorem spline_maker_at_node
  (spsolve : dia_matrix -> array -> result array) (g : globals)
  (xvals fvals qvals iv : array) (i j : nat) :
  solver_shape spsolve ->
  length xvals = length fvals -> (3 <= length fvals)%nat ->
  increasingb xvals = true ->
  ivals g = Some iv -> length iv = length qvals ->
  (i < length qvals)%nat -> (j < length xvals - 1)%nat ->
  nth i qvals 0 == nth j xvals 0 ->
  exists svals,
    spline_maker spsolve g xvals fvals qvals = Ok svals /\
    nth i svals 0 == nth j fvals 0.
Proof.
  intros Hsolve Hlen Hn Hinc Hg Hiv Hi Hj Hq.
  destruct (valid_call_spec spsolve g xvals fvals qvals iv Hsolve Hlen Hn Hg Hiv)
    as (fr & m & Hrun & Hs & Hx & Hf & Hm & Hfr).
  exists (Locals.svals fr). unfold spline_maker. rewrite Hrun. cbn [bind].
  split; [reflexivity|].
  assert (Hin : in_interval xvals (S j) (nth i qvals 0)).
  { unfold in_interval. replace (S j - 1)%nat with j by lia. rewrite Hq.
    split; [apply Qle_refl|]. apply increasingb_adjacent; auto. lia. }
  rewrite (accepted_hit _ _ _ _ _ m _ (S j) i Hfr Hx Hinc) by (auto; lia).
  unfold segment. replace (S j - 1)%nat with j by lia.
  unfold cubic. rewrite Hq. ring.
Qed.

Lemma spline_maker_at_node_witness :
  exists svals,
    spline_maker tridiag_solve
      {| ivals := Some ex_xvals; ipoly := None |} ex_xvals ex_fvals ex_xvals
    = Ok svals /\
    nth 1 svals 0 == nth 1 ex_fvals 0.
Proof.
  apply (spline_maker_at_node tridiag_solve
           {| ivals := Some ex_xvals; ipoly := None |} ex_xvals ex_fvals
           ex_xvals ex_xvals 1 1);
    [ exact tridiag_solve_shape | reflexivity | simpl; lia | reflexivity
    | reflexivity | reflexivity | simpl; lia | simpl; lia | reflexivity ].
Defined.

(** X3. The cubics interpolate at both ends of their segments: for a call
    that returned on strictly increasing nodes, segment [j] takes the value
    [f_j] at [x_j] and [f_{j+1}] at [x_{j+1}], the last node included. *)
Theorem segments_interpolate
  (spsolve : dia_matrix -> array -> result array) (g : globals)
  (xvals fvals qvals : array) (fr : Locals.t) (j : nat) :
  spline_maker_locals spsolve g xvals fvals qvals = Ok fr ->
  length xvals = length fvals ->
  increasingb xvals = true ->
  length (tl (Locals.bvec fr)) = length (Locals.rhs fr) ->
  (j < length fvals - 1)%nat ->
  cubic (nth j (Locals.avec fr) 0) (nth j (Locals.bvec fr) 0)
    (nth j (Locals.cvec fr) 0) (nth j fvals 0) (nth j xvals 0 - nth j xvals 0)
  == nth j fvals 0 /\
  cubic (nth j (Locals.avec fr) 0) (nth j (Locals.bvec fr) 0)
    (nth j (Locals.cvec fr) 0) (nth j fvals 0)
    (nth (S j) xvals 0 - nth j xvals 0)
  == nth (S j) fvals 0.
Proof.
  intros Hrun Hlen Hinc Hs Hj.
  destruct (accepted_spec _ _ _ _ _ _ Hrun Hlen Hs) as (m & Hx & Hf & Hm & Hfr).
  replace (length fvals - 1)%nat with m in * by lia.
  pose proof (delta_nonzero xvals j Hinc ltac:(lia)) as Hd.
  split.
  - unfold cubic. ring.
  - change (nth (S j) xvals 0 - nth j xvals 0) with (delta xvals j).
    rewrite (avec_nth _ _ _ _ _ _ _ Hx Hf Hm Hfr Hs j Hj).
    rewrite segment_value_algebra by exact Hd.
    unfold slope, delta. field. exact Hd.
Qed.

Lemma segments_interpolate_witness :
  cubic (nth 2 (Locals.avec ex_locals) 0) (nth 2 (Locals.bvec ex_locals) 0)
    (nth 2 (Locals.cvec ex_locals) 0) (nth 2 ex_fvals 0)
    (nth 2 ex_xvals 0 - nth 2 ex_xvals 0)
  == nth 2 ex_fvals 0 /\
  cubic (nth 2 (Locals.avec ex_locals) 0) (nth 2 (Locals.bvec ex_locals) 0)
    (nth 2 (Locals.cvec ex_locals) 0) (nth 2 ex_fvals 0)
    (nth 3 ex_xvals 0 - nth 2 ex_xvals 0)
  == nth 3 ex_fvals 0.
Proof.
  apply (segments_interpolate tridiag_solve ex_globals ex_xvals ex_fvals
           ex_qvals ex_locals 2);
    [ vm_compute; reflexivity | reflexivity | reflexivity | reflexivity
    | simpl; lia ].
Defined.

(** X4. With an exact solver answer, the spline of values that lie on a
    straight line [alpha*x + beta] is that line at every query between the
    first and the last node. *)
Theorem spline_reproduces_lines
  (spsolve : dia_matrix -> array -> result array) (g : globals)
  (xvals fvals qvals : array) (fr : Locals.t) (alpha beta : Q) (i : nat) :
  spline_maker_locals spsolve g xvals fvals qvals = Ok fr ->
  length xvals = length fvals ->
  increasingb xvals = true ->
  exact_solve fr ->
  (forall k, (k < length xvals)%nat ->
     nth k fvals 0 == alpha * nth k xvals 0 + beta) ->
  (i < length qvals)%nat ->
  nth 0 xvals 0 <= nth i qvals 0 ->
  nth i qvals 0 < nth (length xvals - 1) xvals 0 ->
  nth i (Locals.svals fr) 0 == alpha * nth i qvals 0 + beta.
Proof.
  intros Hrun Hlen Hinc Hex Hline Hi Hl Hr.
  pose proof Hex as [Hs _].
  destruct (accepted_spec _ _ _ _ _ _ Hrun Hlen Hs) as (m & Hx & Hf & Hm & Hfr).
  replace (length xvals - 1)%nat with m in * by lia.
  assert (Hb : forall k, (k <= m)%nat -> nth k (Locals.bvec fr) 0 == 0).
  { apply (tridiag_zero (fun k => nth k (Locals.bvec fr) 0)
             (fun k => delta xvals k / 3)).
    - now rewrite (bvec_0 _ _ _ _ _ _ _ Hx Hf Hm Hfr Hs).
    - rewrite nth_overflow; [reflexivity|].
      rewrite (bvec_length _ _ _ _ _ _ _ Hx Hf Hm Hfr Hs). lia.
    - intros k Hk. apply Qlt_shift_div_l; [reflexivity|].
      rewrite Qmult_0_l. apply delta_pos; auto. lia.
    - intros k Hk. cbv beta.
      pose proof (curvature_equation _ _ _ _ _ _ _ Hx Hf Hm Hfr Hs k Hex Hk)
        as E.
      rewrite !(slope_of_line xvals fvals alpha beta) in E by (auto; lia).
      assert (E' : alpha - alpha == 0) by ring.
      rewrite E' in E. etransitivity; [|exact E]. field. }
  destruct (locate_interval xvals (nth i qvals 0) m)
    as (jj & Hjj & Hin); auto; try lia.
  rewrite (accepted_hit _ _ _ _ _ m _ jj i Hfr Hx Hinc) by (auto; lia).
  destruct jj as [|j]; [lia|]. replace (S j - 1)%nat with j by lia.
  pose proof (delta_nonzero xvals j Hinc ltac:(lia)) as Hd.
  unfold segment.
  rewrite (avec_nth _ _ _ _ _ _ _ Hx Hf Hm Hfr Hs j) by lia.
  rewrite (cvec_nth _ _ _ _ _ _ _ Hx Hf Hm Hfr Hs j) by lia.
  unfold cubic.
  rewrite (slope_of_line xvals fvals alpha beta) by (auto; lia).
  rewrite (Hb j) by lia. rewrite (Hb (S j)) by lia.
  rewrite (Hline j) by lia.
  field. exact Hd.
Qed.

Lemma spline_reproduces_lines_witness :
  nth 0 (Locals.svals ex_line_locals) 0 == 2 * nth 0 ex_qvals 0 + 1.
Proof.
  apply (spline_reproduces_lines tridiag_solve ex_globals ex_xvals
           ex_line_fvals ex_qvals ex_line_locals 2 1 0);
    [ vm_compute; reflexivity | reflexivity | reflexivity
    | split;
      [ reflexivity
      | intros i Hi; destruct i as [|[|i]];
        [ vm_compute; reflexivity | vm_compute; reflexivity
        | exfalso; vm_compute in Hi; lia ] ]
    | intros k Hk; destruct k as [|[|[|[|k]]]];
      [ vm_compute; reflexivity | vm_compute; reflexivity
      | vm_compute; reflexivity | vm_compute; reflexivity
      | exfalso; vm_compute in Hk; lia ]
    | simpl; lia | vm_compute; discriminate | vm_compute; reflexivity ].
Defined.

(** X5. The loop over arrays is the loop for one query at a time: entry [i]
    of the result of a call that returned is what the passes give for the
    query [i] alone, from the initial zero. *)
Theorem spline_maker_pointwise
  (spsolve : dia_matrix -> array -> result array) (g : globals)
  (xvals fvals qvals : array) (fr : Locals.t) (i : nat) :
  spline_maker_locals spsolve g xvals fvals qvals = Ok fr ->
  (i < length qvals)%nat ->
  nth i (Locals.svals fr) 0
  = scalar_eval xvals fvals (Locals.avec fr) (Locals.bvec fr)
      (Locals.cvec fr) (seq 1 (length fvals - 1)) (nth i qvals 0) 0.
Proof.
  intros Hrun Hi.
  destruct (accepted_loop _ _ _ _ _ _ Hrun) as (Hn & iv & Hg & Hloop).
  rewrite (loop_scalar _ _ _ _ _ _ _ _ _ i Hloop) by exact Hi.
  unfold zeros. now rewrite nth_repeat.
Qed.

Lemma spline_maker_pointwise_witness :
  nth 2 (Locals.svals ex_locals) 0
  = scalar_eval ex_xvals ex_fvals (Locals.avec ex_locals)
      (Locals.bvec ex_locals) (Locals.cvec ex_locals)
      (seq 1 (length ex_fvals - 1)) (nth 2 ex_qvals 0) 0.
Proof.
  apply (spline_maker_pointwise tridiag_solve ex_globals ex_xvals ex_fvals
           ex_qvals ex_locals 2);
    [ vm_compute; reflexivity | simpl; lia ].
Defined.

(** X6. The value returned for a query depends on the sample set and on
    that query only: two calls that returned on the same sample set give the
    same value wherever they hold the same query, whatever the other
    queries and the module state are. *)
Theorem spline_maker_query_independent
  (spsolve : dia_matrix -> array -> result array) (g1 g2 : globals)
  (xvals fvals q1 q2 s1 s2 : array) (i1 i2 : nat) :
  spline_maker spsolve g1 xvals fvals q1 = Ok s1 ->
  spline_maker spsolve g2 xvals fvals q2 = Ok s2 ->
  (i1 < length q1)%nat -> (i2 < length q2)%nat ->
  nth i1 q1 0 = nth i2 q2 0 ->
  nth i1 s1 0 = nth i2 s2 0.
Proof.
  intros H1 H2 Hi1 Hi2 Hq. unfold spline_maker in H1, H2.
  apply bind_inv in H1 as (fr1 & Hrun1 & H1). injection H1 as <-.
  apply bind_inv in H2 as (fr2 & Hrun2 & H2). injection H2 as <-.
  destruct (coefficients_from_sample _ _ _ _ _ _ _ _ _ Hrun1 Hrun2)
    as (Ea & Eb & Ec).
  destruct (accepted_loop _ _ _ _ _ _ Hrun1) as (_ & iv1 & Hg1 & Hloop1).
  destruct (accepted_loop _ _ _ _ _ _ Hrun2) as (_ & iv2 & Hg2 & Hloop2).
  rewrite (loop_scalar _ _ _ _ _ _ _ _ _ i1 Hloop1) by exact Hi1.
  rewrite (loop_scalar _ _ _ _ _ _ _ _ _ i2 Hloop2) by exact Hi2.
  unfold zeros. rewrite !nth_repeat. now rewrite Ea, Eb, Ec, Hq.
Qed.

Lemma spline_maker_query_independent_witness :
  nth 0 (Locals.svals ex_locals) 0 = nth 0 [881280 # 1327104] 0.
Proof.
  apply (spline_maker_query_independent tridiag_solve ex_globals
           {| ivals := Some [0]; ipoly := Some [1] |} ex_xvals ex_fvals
           ex_qvals [1 # 2] (Locals.svals ex_locals) [881280 # 1327104] 0 0);
    [ vm_compute; reflexivity | vm_compute; reflexivity | simpl; lia
    | simpl; lia | reflexivity ].
Defined.

(** X7. A call that returns had at least two values and found [ivals]
    bound; its result has the size of [ivals], and its queries are as many
    as that, or there is no query at all. *)
Theorem accepted_call_sizes
  (spsolve : dia_matrix -> array -> result array) (g : globals)
  (xvals fvals qvals svals : array) :
  spline_maker spsolve g xvals fvals qvals = Ok svals ->
  (2 <= length fvals)%nat /\
  exists iv, ivals g = Some iv /\
    length svals = length iv /\
    (length qvals = length iv \/ qvals = []).
Proof.
  intros H. unfold spline_maker in H.
  apply bind_inv in H as (fr & Hrun & H). injection H as <-.
  destruct (accepted_loop _ _ _ _ _ _ Hrun) as (Hn & _).
  split; [exact Hn|]. exact (accepted_sizes _ _ _ _ _ _ Hrun).
Qed.

Lemma accepted_call_sizes_witness :
  (2 <= length ex_fvals)%nat /\
  exists iv, ivals ex_globals = Some iv /\
    length (Locals.svals ex_locals) = length iv /\
    (length ex_qvals = length iv \/ ex_qvals = []).
Proof.
  apply (accepted_call_sizes tridiag_solve ex_globals ex_xvals ex_fvals
           ex_qvals (Locals.svals ex_locals)).
  vm_compute. reflexivity.
Defined.

(** ** Calls that raise *)

(** X8. With as many nodes as values and the module-level [ivals] not
    bound, the call raises [NameError], before the solver is reached. *)
Theorem spline_maker_unbound_ivals
  (spsolve : dia_matrix -> array -> result array) (g : globals)
  (xvals fvals qvals : array) :
  length xvals = length fvals -> ivals g = None ->
  spline_maker spsolve g xvals fvals qvals = Raise NameError.
Proof.
  intros Hlen Hg. unfold spline_maker, spline_maker_locals, slice_from1.
  rewrite (broadcast2_same Qminus (tl fvals))
    by (rewrite length_tl, (slice_to_pred_length fvals (length fvals)); auto).
  cbn [bind].
  rewrite (broadcast2_same Qminus (tl xvals))
    by (rewrite length_tl, (slice_to_pred_length xvals (length fvals)); auto).
  cbn [bind].
  rewrite broadcast2_same.
  - cbn [bind]. rewrite Hg. reflexivity.
  - rewrite !map2_length, !length_tl.
    rewrite (slice_to_pred_length fvals (length fvals)) by auto.
    rewrite (slice_to_pred_length xvals (length fvals)) by auto. lia.
Qed.

Lemma spline_maker_unbound_ivals_witness :
  spline_maker tridiag_solve {| ivals := None; ipoly := None |}
    ex_xvals ex_fvals ex_qvals = Raise NameError.
Proof.
  apply (spline_maker_unbound_ivals tridiag_solve
           {| ivals := None; ipoly := None |} ex_xvals ex_fvals ex_qvals);
    reflexivity.
Defined.

(** X9. With at least one query and [ivals] bound to an array that has not
    the size of the queries, a call on at least three nodes raises
    [IndexError] in the first pass of the loop. *)
Theorem spline_maker_ivals_size
  (spsolve : dia_matrix -> array -> result array) (g : globals)
  (xvals fvals qvals iv : array) :
  solver_shape spsolve ->
  length xvals = length fvals -> (3 <= length fvals)%nat ->
  ivals g = Some iv ->
  qvals <> [] -> length iv <> length qvals ->
  spline_maker spsolve g xvals fvals qvals = Raise IndexError.
Proof.
  intros Hsolve Hlen Hn Hg Hne Hiv.
  assert (Hf : length fvals = S (length fvals - 1)) by lia.
  assert (Hx : length xvals = S (length fvals - 1)) by lia.
  destruct (spline_maker_locals_to_loop spsolve g xvals fvals qvals _ iv
              Hx Hf ltac:(lia) Hg Hsolve)
    as (avec & bvec & cvec & k & La & Lb & Lc & _ & E).
  unfold spline_maker. rewrite E.
  destruct (length fvals - 1)%nat as [|m] eqn:Em; [lia|].
  cbn [seq for_each].
  rewrite spline_step_mismatch; try lia.
  - reflexivity.
  - exact Hne.
  - unfold zeros. rewrite repeat_length. congruence.
Qed.

Lemma spline_maker_ivals_size_witness :
  spline_maker tridiag_solve {| ivals := Some [0; 0]; ipoly := None |}
    ex_xvals ex_fvals ex_qvals = Raise IndexError.
Proof.
  apply (spline_maker_ivals_size tridiag_solve
           {| ivals := Some [0; 0]; ipoly := None |} ex_xvals ex_fvals
           ex_qvals [0; 0]);
    [ exact tridiag_solve_shape | reflexivity | simpl; lia | reflexivity
    | discriminate | simpl; lia ].
Defined.

(** X10. With different numbers of nodes and of values, at least three of
    each, the call raises [ValueError] when it subtracts the nodes, whatever
    the module state and the solver are. *)
Theorem spline_maker_count_mismatch
  (spsolve : dia_matrix -> array -> result array) (g : globals)
  (xvals fvals qvals : array) :
  length xvals <> length fvals ->
  (3 <= length xvals)%nat -> (3 <= length fvals)%nat ->
  spline_maker spsolve g xvals fvals qvals = Raise ValueError.
Proof.
  intros Hne Hx Hf. unfold spline_maker, spline_maker_locals, slice_from1.
  rewrite (broadcast2_same Qminus (tl fvals))
    by (rewrite length_tl, (slice_to_pred_length fvals (length fvals)); auto).
  cbn [bind].
  replace (Z.of_nat (length fvals) - 1)%Z
    with (Z.of_nat (length fvals - 1)) by lia.
  rewrite slice_to_nat.
  rewrite (broadcast2_mismatch Qminus (tl xvals));
    rewrite ?length_tl, ?length_firstn; try lia.
  reflexivity.
Qed.

Lemma spline_maker_count_mismatch_witness :
  spline_maker tridiag_solve ex_globals [0; 1; 2; 3; 4] ex_fvals ex_qvals
  = Raise ValueError.
Proof.
  apply (spline_maker_count_mismatch tridiag_solve ex_globals
           [0; 1; 2; 3; 4] ex_fvals ex_qvals);
    [ simpl; lia | simpl; lia | simpl; lia ].
Defined.

(** X11. With at most one node and one value, and [ivals] bound, the call
    raises [ValueError]: the system would have a negative size. *)
Theorem spline_maker_too_few_nodes
  (spsolve : dia_matrix -> array -> result array) (g : globals)
  (xvals fvals qvals iv : array) :
  length xvals = length fvals -> (length fvals <= 1)%nat ->
  ivals g = Some iv ->
  spline_maker spsolve g xvals fvals qvals = Raise ValueError.
Proof.
  intros Hlen Hn Hg.
  destruct fvals as [|f0 [|f1 fs]]; cbn [length] in Hn; try lia;
    destruct xvals as [|x0 [|x1 xs]]; try discriminate Hlen;
    unfold spline_maker, spline_maker_locals; cbn; rewrite Hg; reflexivity.
Qed.

Lemma spline_maker_too_few_nodes_witness :
  spline_maker tridiag_solve ex_globals [1] [5] ex_qvals = Raise ValueError.
Proof.
  apply (spline_maker_too_few_nodes tridiag_solve ex_globals [1] [5] ex_qvals
           ex_qvals);
    [ reflexivity | simpl; lia | reflexivity ].
Defined.

(** ** The cell that runs the spline *)

(** X12. The call of the cell returns, whatever the module state before it
    and for every solver that answers with a vector of the right length,
    and each of its 5000 queries lies in the interval of one of the 1000
    segments and is evaluated by the cubic of that segment: none is left at
    the initial zero. *)
Theorem spline_cell_evaluates
  (spsolve : dia_matrix -> array -> result array) (g : globals) (i : nat) :
  solver_shape spsolve -> (i < 5000)%nat ->
  let xvs := linspace (-1) 1 (1000 + 1) in
  let fvs := map (fun x => 1 / (1 + x ^ 2)) xvs in
  let qs := linspace (- (99 # 100)) (99 # 100) 5000 in
  exists fr jj svals,
    spline_cell spsolve g = Ok svals /\
    spline_maker_locals spsolve {| ivals := Some qs; ipoly := ipoly g |}
      xvs fvs qs = Ok fr /\
    length svals = 5000%nat /\
    (1 <= jj <= 1000)%nat /\
    in_interval xvs jj (nth i qs 0) /\
    nth i svals 0
    = segment xvs fvs (Locals.avec fr) (Locals.bvec fr) (Locals.cvec fr)
        (jj - 1) (nth i qs 0).
Proof.
  intros Hsolve Hi xvs fvs qs.
  assert (Lx : length xvs = 1001%nat).
  { subst xvs. rewrite linspace_length. reflexivity. }
  assert (Lf : length fvs = 1001%nat) by (subst fvs; now rewrite length_map).
  assert (Lq : length qs = 5000%nat) by (subst qs; apply linspace_length).
  assert (Hinc : increasingb xvs = true)
    by (apply linspace_increasing; reflexivity).
  destruct (linspace_bounds (- (99 # 100)) (99 # 100) 5000 i) as [Hq0 Hq1];
    [discriminate|exact Hi|]. fold qs in Hq0, Hq1.
  assert (Hx0 : nth 0 xvs 0 == -1).
  { subst xvs. change (1000 + 1)%nat with (S (S 999)).
    rewrite linspace_nth by lia. reflexivity. }
  assert (Hxn : nth 1000 xvs 0 == 1).
  { subst xvs. change (1000 + 1)%nat with (S (S 999)).
    rewrite linspace_nth by lia. reflexivity. }
  set (g' := {| ivals := Some qs; ipoly := ipoly g |}).
  destruct (valid_call_spec spsolve g' xvs fvs qs qs Hsolve)
    as (fr & m & Hrun & Hs & Hx & Hf & Hm & Hfr);
    try reflexivity; try lia.
  destruct (locate_interval xvs (nth i qs 0) 1000)
    as (jj & Hjj & Hin); try lia.
  { rewrite Hx0. apply Qle_trans with (- (99 # 100)); [discriminate|exact Hq0]. }
  { rewrite Hxn. apply Qle_lt_trans with (99 # 100); [exact Hq1|reflexivity]. }
  exists fr, jj, (Locals.svals fr).
  split; [unfold spline_cell; cbn [ivals lookup bind]; fold xvs fvs qs g';
          unfold spline_maker; now rewrite Hrun|].
  split; [exact Hrun|].
  split.
  { destruct (accepted_sizes _ _ _ _ _ _ Hrun) as (iv & Hg & Hl & Hq).
    subst g'. cbn [ivals] in Hg. injection Hg as <-. congruence. }
  split; [lia|]. split; [exact Hin|].
  apply (accepted_hit _ _ _ _ _ m _ jj i Hfr Hx Hinc); auto; lia.
Qed.

Lemma spline_cell_evaluates_witness :
  let xvs := linspace (-1) 1 (1000 + 1) in
  let fvs := map (fun x => 1 / (1 + x ^ 2)) xvs in
  let qs := linspace (- (99 # 100)) (99 # 100) 5000 in
  exists fr jj svals,
    spline_cell tridiag_solve ex_globals = Ok svals /\
    spline_maker_locals tridiag_solve
      {| ivals := Some qs; ipoly := ipoly ex_globals |} xvs fvs qs = Ok fr /\
    length svals = 5000%nat /\
    (1 <= jj <= 1000)%nat /\
    in_interval xvs jj (nth 0 qs 0) /\
    nth 0 svals 0
    = segment xvs fvs (Locals.avec fr) (Locals.bvec fr) (Locals.cvec fr)
        (jj - 1) (nth 0 qs 0).
Proof.
  apply (spline_cell_evaluates tridiag_solve ex_globals 0);
    [ exact tridiag_solve_shape | lia ].
Defined.

(** ** A call without queries *)

Lemma loop_no_query (xvals fvals avec bvec cvec : array) (js : list nat)
  (s s' : array) :
  for_each js (spline_step xvals fvals [] avec bvec cvec) s = Ok s' -> s' = s.
Proof.
  revert s. induction js as [|j js IH]; cbn [for_each]; intros s H.
  - now injection H.
  - apply bind_inv in H as (s1 & H1 & H).
    unfold spline_step in H1.
    apply bind_inv in H1 as (xr & _ & H1).
    apply bind_inv in H1 as (xl & _ & H1).
    apply bind_inv in H1 as (xl' & _ & H1).
    apply bind_inv in H1 as (a & _ & H1).
    apply bind_inv in H1 as (b & _ & H1).
    apply bind_inv in H1 as (c & _ & H1).
    apply bind_inv in H1 as (d & _ & H1).
    cbn in H1. injection H1 as <-. exact (IH _ H).
Qed.

(** X13. With no query at all, a call on at least three nodes returns the
    zeros it allocated, as many as the module-level [ivals] has entries:
    every pass selects nothing, whatever the size of [ivals] is. *)
Theorem spline_maker_no_query
  (spsolve : dia_matrix -> array -> result array) (g : globals)
  (xvals fvals iv : array) :
  solver_shape spsolve ->
  length xvals = length fvals -> (3 <= length fvals)%nat ->
  ivals g = Some iv ->
  spline_maker spsolve g xvals fvals [] = Ok (zeros (length iv)).
Proof.
  intros Hsolve Hlen Hn Hg.
  assert (Hf : length fvals = S (length fvals - 1)) by lia.
  assert (Hx : length xvals = S (length fvals - 1)) by lia.
  destruct (spline_maker_locals_to_loop spsolve g xvals fvals [] _ iv
              Hx Hf ltac:(lia) Hg Hsolve)
    as (avec & bvec & cvec & k & La & Lb & Lc & Hk & E).
  unfold spline_maker. rewrite E.
  destruct (loop_run xvals fvals [] avec bvec cvec
              (seq 1 (length fvals - 1)) (zeros (length iv)))
    as (sv & Hloop).
  { intros j Hj. apply in_seq in Hj. lia. }
  { now right. }
  rewrite Hloop. cbn [bind].
  apply loop_no_query in Hloop. subst sv.
  destruct (Hk (zeros (length iv))) as (fr & -> & Hsv).
  cbn [bind]. now rewrite Hsv.
Qed.

Lemma spline_maker_no_query_witness :
  spline_maker tridiag_solve ex_globals ex_xvals ex_fvals []
  = Ok (zeros (length ex_qvals)).
Proof.
  apply (spline_maker_no_query tridiag_solve ex_globals ex_xvals ex_fvals
           ex_qvals);
    [ exact tridiag_solve_shape | reflexivity | simpl; lia | reflexivity ].
Defined.
